(** * MonkeyType: the type algebra, the shrinker and the type rewriters

    A shallow embedding of [monkeytype/typing.py].

    Python's runtime type objects are embedded as the inductive [type]:
    classes carry their name and their direct bases, generic aliases carry
    their origin ([typing.List], the builtin [list], ...) and their
    arguments, an anonymous TypedDict (the one named DUMMY_NAME) carries its
    two field dictionaries, and a Union carries its members.  Dictionaries
    are insertion-ordered association lists, as Python's are.  Code that can
    raise returns a [result].  [types.UnionType] and [typing.Union] are one
    constructor, as the source takes them to be ([UnionType[elems]],
    [a | b]). *)

From Stdlib Require Import List String ZArith Bool Lia Arith Permutation.
Import ListNotations.
Open Scope string_scope.
Open Scope list_scope.

Set Warnings "-register-all".

(** ** Results of code that can raise *)

Inductive exn : Type :=
| AssertionError
| TypeError
| IndexError
| AttributeError
| RecursionError.

Inductive result (A : Type) : Type :=
| Ok (a : A)
| Raise (e : exn).

Arguments Ok {A} a.
Arguments Raise {A} e.

Definition bind {A B : Type} (m : result A) (f : A -> result B) : result B :=
  match m with
  | Ok a => f a
  | Raise e => Raise e
  end.

Notation "x <- m ;; k" := (bind m (fun x => k))
  (at level 61, m at next level, right associativity).

Section Iteration.
Context {A B : Type} (f : A -> result B).

(** [tuple(f(x) for x in xs)]: the calls run left to right and the first
    exception propagates. *)
Fixpoint mapM (xs : list A) : result (list B) :=
  match xs with
  | [] => Ok []
  | x :: xs' => y <- f x ;; ys <- mapM xs' ;; Ok (y :: ys)
  end.

(** [tuple(f(x) for x in xs if p(x))] *)
Fixpoint mapM_if (p : A -> bool) (xs : list A) : result (list B) :=
  match xs with
  | [] => Ok []
  | x :: xs' =>
      if p x then y <- f x ;; ys <- mapM_if p xs' ;; Ok (y :: ys)
      else mapM_if p xs'
  end.

(** [{k: f(v) for k, v in d.items()}] *)
Fixpoint map_valuesM (d : list (string * A)) : result (list (string * B)) :=
  match d with
  | [] => Ok []
  | (k, v) :: d' => y <- f v ;; ys <- map_valuesM d' ;; Ok ((k, y) :: ys)
  end.
End Iteration.

Definition is_ok {A : Type} (m : result A) : bool :=
  match m with Ok _ => true | Raise _ => false end.

(** ** Comparisons of containers *)

Section Eqb.
Context {A : Type} (eq : A -> A -> bool).

(** tuples: position by position *)
Fixpoint tuple_eqb (l1 l2 : list A) {struct l1} : bool :=
  match l1, l2 with
  | [], [] => true
  | x :: l1', y :: l2' => eq x y && tuple_eqb l1' l2'
  | _, _ => false
  end.

(** sets: each side included in the other *)
Definition set_eqb (l1 l2 : list A) : bool :=
  forallb (fun x => existsb (fun y => eq x y) l2) l1
  && forallb (fun y => existsb (fun x => eq x y) l1) l2.

Definition item_eqb (x y : string * A) : bool :=
  String.eqb (fst x) (fst y) && eq (snd x) (snd y).
End Eqb.

(** dictionaries: the same items, in any order *)
Definition dict_eqb {A : Type} (eq : A -> A -> bool)
    (d1 d2 : list (string * A)) : bool :=
  set_eqb (item_eqb eq) d1 d2.

Definition keys {V : Type} (d : list (string * V)) : list string := map fst d.
Definition values {V : Type} (d : list (string * V)) : list V := map snd d.

(** ** Classes *)

(** A class object: its [__name__] and its [__bases__]. *)
Inductive klass : Type :=
| Klass (name : string) (bases : list klass).

Definition klass_name (c : klass) : string := let (n, _) := c in n.
Definition klass_bases (c : klass) : list klass := let (_, b) := c in b.

(** [is] on classes *)
Fixpoint klass_eqb (a b : klass) {struct a} : bool :=
  match a, b with
  | Klass n1 bs1, Klass n2 bs2 =>
      String.eqb n1 n2 && tuple_eqb klass_eqb bs1 bs2
  end.

Definition object_ : klass := Klass "object" [].
Definition int_ : klass := Klass "int" [object_].
Definition str_ : klass := Klass "str" [object_].
Definition NoneType : klass := Klass "NoneType" [object_].

(** ** The type algebra *)

(** The origins of the generic aliases the code builds: those of [typing]
    and the builtin classes [list], [set], [dict] and [tuple]. *)
Inductive generic : Type :=
| typing_List | typing_Set | typing_Dict | typing_DefaultDict | typing_Tuple
| typing_Iterator | typing_Generator
| builtins_list | builtins_set | builtins_dict | builtins_tuple.

Definition generic_eqb (a b : generic) : bool :=
  match a, b with
  | typing_List, typing_List | typing_Set, typing_Set
  | typing_Dict, typing_Dict | typing_DefaultDict, typing_DefaultDict
  | typing_Tuple, typing_Tuple | typing_Iterator, typing_Iterator
  | typing_Generator, typing_Generator
  | builtins_list, builtins_list | builtins_set, builtins_set
  | builtins_dict, builtins_dict | builtins_tuple, builtins_tuple => true
  | _, _ => false
  end.

(** [__module__] of an alias: a builtin alias answers with its origin's. *)
Definition module_ (g : generic) : string :=
  match g with
  | builtins_list | builtins_set | builtins_dict | builtins_tuple => "builtins"
  | _ => "typing"
  end.

Inductive type : Type :=
| TAny
| TNominal (c : klass)                      (* a class *)
| TMeta (c : klass)                         (* type[c] *)
| TCallable
| TEllipsis                                 (* the ... of Tuple[V, ...] *)
| TContainer (g : generic) (args : list type)  (* g[args] *)
| TAnon (required optional : list (string * type))
                                            (* the TypedDict named DUMMY_NAME *)
| TTypedDict (name : string) (annotations : list (string * type)) (total : bool)
| TUnion (members : list type)
| TVar (name : string).

Definition fields : Type := list (string * type).

(** [==] on types, as [types_equal] of the compat layer: generic aliases
    compare their origin and their argument tuples, unions compare their
    members as sets, TypedDicts compare their fields as dictionaries. *)
Fixpoint type_eqb (a b : type) {struct a} : bool :=
  match a, b with
  | TAny, TAny => true
  | TNominal c1, TNominal c2 => klass_eqb c1 c2
  | TMeta c1, TMeta c2 => klass_eqb c1 c2
  | TCallable, TCallable => true
  | TEllipsis, TEllipsis => true
  | TContainer g1 l1, TContainer g2 l2 =>
      generic_eqb g1 g2 && tuple_eqb type_eqb l1 l2
  | TAnon r1 o1, TAnon r2 o2 =>
      dict_eqb type_eqb r1 r2 && dict_eqb type_eqb o1 o2
  | TTypedDict n1 a1 t1, TTypedDict n2 a2 t2 =>
      String.eqb n1 n2 && Bool.eqb t1 t2 && dict_eqb type_eqb a1 a2
  | TUnion l1, TUnion l2 => set_eqb type_eqb l1 l2
  | TVar n1, TVar n2 => String.eqb n1 n2
  | _, _ => false
  end.

Definition types_equal : type -> type -> bool := type_eqb.

(** *** The predicates of the compat layer *)

Definition is_any (typ : type) : bool :=
  match typ with TAny => true | _ => false end.

Definition is_union (typ : type) : bool :=
  match typ with TUnion _ => true | _ => false end.

Definition is_typed_dict (typ : type) : bool :=
  match typ with TAnon _ _ | TTypedDict _ _ _ => true | _ => false end.

Definition is_generic (typ : type) : bool :=
  match typ with TContainer _ _ => true | _ => false end.

(** Modelled from the spec: [name_of_generic] of [monkeytype/compat.py],
    which is not in the source tree.  The spec knows one container kind per
    name ("is a generic of a given kind, and what is that kind's name"), so a
    builtin alias bears the name of the typing alias of its kind. *)
Definition name_of_generic (g : generic) : string :=
  match g with
  | typing_List | builtins_list => "List"
  | typing_Set | builtins_set => "Set"
  | typing_Dict | builtins_dict => "Dict"
  | typing_DefaultDict => "DefaultDict"
  | typing_Tuple | builtins_tuple => "Tuple"
  | typing_Iterator => "Iterator"
  | typing_Generator => "Generator"
  end.

(** Modelled from the spec: [is_generic_of] of [monkeytype/compat.py], by
    the kind of the alias. *)
Definition is_generic_of (typ : type) (g : generic) : bool :=
  match typ with
  | TContainer g' _ => String.eqb (name_of_generic g') (name_of_generic g)
  | _ => false
  end.

Definition is_list (typ : type) : bool :=
  match typ with
  | TContainer g _ => String.eqb (name_of_generic g) "List"
  | _ => false
  end.

Definition is_anonymous_typed_dict (typ : type) : bool :=
  match typ with TAnon _ _ => true | _ => false end.

Definition field_annotations (typed_dict : type) : fields * fields :=
  match typed_dict with
  | TAnon required optional => (required, optional)
  | _ => ([], [])
  end.

(** [typ.__args__], where the object has them *)
Definition get_args (typ : type) : option (list type) :=
  match typ with
  | TContainer _ args => Some args
  | TUnion members => Some members
  | TMeta c => Some [TNominal c]
  | _ => None
  end.

(** *** Constructors *)

Definition isdisjoint (l1 l2 : list string) : bool :=
  forallb (fun k => negb (existsb (String.eqb k) l2)) l1.

Definition make_typed_dict (required_fields optional_fields : fields)
  : result type :=
  if isdisjoint (keys required_fields) (keys optional_fields)
  then Ok (TAnon required_fields optional_fields)
  else Raise AssertionError.

(** [Union[params]]: nested unions are flattened, duplicates are dropped (the
    first of each is kept), a single member is returned as it is, and no
    member at all is a TypeError. *)
Definition flatten (params : list type) : list type :=
  flat_map (fun p => match p with TUnion ms => ms | _ => [p] end) params.

Fixpoint deduplicate (params : list type) : list type :=
  match params with
  | [] => []
  | t :: rest => t :: filter (fun u => negb (type_eqb t u)) (deduplicate rest)
  end.

Definition make_union (params : list type) : result type :=
  match deduplicate (flatten params) with
  | [] => Raise TypeError
  | [t] => Ok t
  | ms => Ok (TUnion ms)
  end.

(** [args[0] | args[1] | ...], the loop of the two [rewrite_Union]s *)
Definition union_or (args : list type) : result type :=
  match args with
  | [] => Raise IndexError
  | a :: rest =>
      fold_left (fun acc t => u <- acc ;; make_union [u; t]) rest (Ok a)
  end.

(** ** The class hierarchy *)

(** [cls.__mro__], the C3 linearisation Python computes when the class is
    created: the class, then the merge of the linearisations of its bases
    and of the list of its bases. *)
Definition in_tail (c : klass) (seq : list klass) : bool :=
  match seq with
  | [] => false
  | _ :: tl => existsb (klass_eqb c) tl
  end.

Definition good_head (seqs : list (list klass)) (seq : list klass) : bool :=
  match seq with
  | [] => false
  | h :: _ => forallb (fun s => negb (in_tail h s)) seqs
  end.

Definition drop_head (h : klass) (seq : list klass) : list klass :=
  match seq with
  | [] => []
  | x :: tl => if klass_eqb x h then tl else seq
  end.

Fixpoint c3_merge (fuel : nat) (seqs : list (list klass)) : list klass :=
  match fuel with
  | O => []
  | S fuel' =>
      match find (good_head seqs) seqs with
      | Some (h :: _) => h :: c3_merge fuel' (map (drop_head h) seqs)
      | _ => []
      end
  end.

Fixpoint getmro (c : klass) : list klass :=
  match c with
  | Klass _ bases =>
      let seqs := map getmro bases ++ [bases] in
      c :: c3_merge (List.length (List.concat seqs)) seqs
  end.

Definition issubclass (c ancestor : klass) : bool :=
  existsb (klass_eqb ancestor) (getmro c).

(** ** RewriteMostSpecificCommonBase: the helpers *)

(** The [while] loop of [_compute_bases]; [bases] is the list built so
    far.  The loop ends because a class is built from its bases. *)
Fixpoint _compute_bases_loop (curr_klass : klass) (bases : list klass)
  : list klass :=
  if klass_eqb curr_klass object_ then bases
  else
    match curr_klass with
    | Klass _ curr_bases =>
        match curr_bases with
        | [b] => _compute_bases_loop b (bases ++ [curr_klass])
        | _ => bases ++ [curr_klass]
        end
    end.

Definition _compute_bases (klass_ : klass) : list klass :=
  rev (_compute_bases_loop klass_ []).

Fixpoint _merge_common_bases (first_bases second_bases : list klass)
  : list klass :=
  match first_bases, second_bases with
  | first_base :: fs, second_base :: ss =>
      if klass_eqb first_base second_base
      then second_base :: _merge_common_bases fs ss
      else []
  | _, _ => []
  end.

(** [functools.reduce(f, xs)] without an initial value *)
Definition reduce {A : Type} (f : A -> A -> A) (xs : list A) : result A :=
  match xs with
  | [] => Raise TypeError
  | x :: rest => Ok (fold_left f rest x)
  end.

(** [klass.__bases__] is read off a class; a typing alias has none. *)
Definition as_klass (typ : type) : result klass :=
  match typ with
  | TNominal c => Ok c
  | _ => Raise AttributeError
  end.

Definition last_opt {A : Type} (l : list A) : option A :=
  match rev l with
  | [] => None
  | x :: _ => Some x
  end.

Definition RewriteMostSpecificCommonBase_rewrite_Union (klasses : list type)
  : result type :=
  ks <- mapM as_klass klasses ;;
  let all_bases := map _compute_bases ks in
  common_bases <- reduce _merge_common_bases all_bases ;;
  match last_opt common_bases with
  | Some c => Ok (TNominal c)
  | None => Ok (TUnion klasses)
  end.

(** ** RewriteConfigDict and RewriteLargeUnion: the union hooks *)

Definition typing_Dict_of (key value : type) : type :=
  TContainer typing_Dict [key; value].

(** The loop of [RewriteConfigDict.rewrite_Union]: [None] is the early
    [return union]. *)
Fixpoint config_dict_loop (es : list type) (key_type : option type)
    (value_types : list type) : result (option (option type * list type)) :=
  match es with
  | [] => Ok (Some (key_type, value_types))
  | e :: es' =>
      if negb (is_generic_of e typing_Dict) then Ok None
      else
        match e with
        | TContainer _ (k :: vs) =>
            let key_type' := match key_type with Some kt => kt | None => k end in
            if negb (type_eqb key_type' k) then Ok None
            else config_dict_loop es' (Some key_type') (value_types ++ vs)
        | _ => Raise IndexError
        end
  end.

Definition RewriteConfigDict_rewrite_Union (members : list type)
  : result type :=
  r <- config_dict_loop members None [] ;;
  match r with
  | None => Ok (TUnion members)
  | Some (key_type, value_types) =>
      u <- make_union value_types ;;
      Ok (typing_Dict_of
            (match key_type with Some k => k | None => TNominal NoneType end) u)
  end.

(** The loop of [_rewrite_to_tuple]; [vt is value_type] is taken as [==].
    [None] is the early [return None], [Some value_type] the end of the
    loop. *)
Fixpoint _rewrite_to_tuple_loop (ts : list type) (value_type : option type)
  : result (option (option type)) :=
  match ts with
  | [] => Ok (Some value_type)
  | t :: ts' =>
      if negb (is_generic_of t typing_Tuple) then Ok None
      else
        match t with
        | TContainer _ (a :: rest) =>
            let v := match value_type with Some v => v | None => a end in
            if forallb (fun vt => type_eqb vt v) (a :: rest)
            then _rewrite_to_tuple_loop ts' (Some v)
            else Ok None
        | _ => Raise IndexError
        end
  end.

Definition variadic_tuple (value_type : type) : type :=
  TContainer typing_Tuple [value_type; TEllipsis].

Definition _rewrite_to_tuple (members : list type) : result (option type) :=
  r <- _rewrite_to_tuple_loop members None ;;
  match r with
  | None => Ok None
  | Some (Some v) => Ok (Some (variadic_tuple v))
  | Some None => Ok (Some (variadic_tuple (TNominal NoneType)))
  end.

(** The [for ancestor in inspect.getmro(...)] loop under its [try]: any
    exception ends it with [Any]; [all] stops at the first member that is no
    subclass. *)
Fixpoint all_subclasses (members : list type) (ancestor : klass) : result bool :=
  match members with
  | [] => Ok true
  | TNominal c :: rest =>
      if issubclass c ancestor then all_subclasses rest ancestor else Ok false
  | _ :: _ => Raise TypeError
  end.

Fixpoint first_common_ancestor (mro : list klass) (members : list type)
  : type :=
  match mro with
  | [] => TAny
  | ancestor :: mro' =>
      if klass_eqb ancestor object_ then first_common_ancestor mro' members
      else
        match all_subclasses members ancestor with
        | Ok true => TNominal ancestor
        | Ok false => first_common_ancestor mro' members
        | Raise _ => TAny
        end
  end.

Definition RewriteLargeUnion_rewrite_Union (max_union_len : Z)
    (members : list type) : result type :=
  if (Z.of_nat (List.length members) <=? max_union_len)%Z
  then Ok (TUnion members)
  else
    rw_union <- _rewrite_to_tuple members ;;
    match rw_union with
    | Some t => Ok t
    | None =>
        match members with
        | TNominal c :: _ => Ok (first_common_ancestor (getmro c) members)
        | _ => Ok TAny
        end
    end.

(** ** The rewriters *)

Inductive rewriter : Type :=
| TypeRewriter
| RemoveEmptyContainers
| RewriteConfigDict
| RewriteLargeUnion (max_union_len : Z)
| RewriteAnonymousTypedDictToDict
| RewriteGenerator
| RewriteMostSpecificCommonBase.

Definition _is_empty (typ : type) : bool :=
  match get_args typ with
  | Some (a :: args) => forallb is_any (a :: args)
  | _ => false
  end.

(** The class [rewrite_List], [rewrite_Set], ... hand to
    [_rewrite_container]; [None] where the rewriter has no method of the
    alias's name. *)
Definition container_class (g : generic) : option generic :=
  match name_of_generic g with
  | "List" => Some builtins_list
  | "Set" => Some builtins_set
  | "Dict" => Some builtins_dict
  | "Tuple" => Some builtins_tuple
  | "Generator" => Some typing_Generator
  | _ => None
  end.

Definition RewriteGenerator_rewrite_Generator (typ : type) (args : list type)
  : result type :=
  match args with
  | a0 :: a1 :: a2 :: _ =>
      if type_eqb a1 (TNominal NoneType) && type_eqb a2 (TNominal NoneType)
      then Ok (TContainer typing_Iterator [a0])
      else Ok typ
  | _ => Raise IndexError
  end.

(** [rewrite]: the dispatch of [GenericTypeRewriter.rewrite] on the shape
    of [typ], with the hooks of [TypeRewriter] and the overrides of each
    rewriter.

    [_rewrite_container] returns an alias whose [__module__] is not "typing"
    as it is, and rebuilds the others on the class it is given: the builtin
    [list], [set], [dict] and [tuple], and [typing.Generator].  The arguments
    of the empty tuple are the empty tuple, so the [((),)] case does not
    arise.  The inherited [rewrite_Union] folds the members with [|], which
    gives the union back (see [union_or_normal]), rewrites its members and
    rebuilds the union. *)
Fixpoint rewrite (rw : rewriter) (typ : type) {struct typ} : result type :=
  match typ with
  | TUnion members =>
      match rw with
      | RemoveEmptyContainers =>
          elems <- mapM_if (rewrite rw) (fun e => negb (_is_empty e)) members ;;
          match elems with
          | _ :: _ => union_or members
          | [] => Ok typ
          end
      | RewriteConfigDict => RewriteConfigDict_rewrite_Union members
      | RewriteLargeUnion n => RewriteLargeUnion_rewrite_Union n members
      | RewriteMostSpecificCommonBase =>
          RewriteMostSpecificCommonBase_rewrite_Union members
      | _ =>
          (* _rewrite_container(UnionType, args[0] | args[1] | ...) *)
          elems <- mapM (rewrite rw) members ;;
          make_union elems
      end
  | TAnon required_fields optional_fields =>
      match rw with
      | RewriteAnonymousTypedDictToDict =>
          match values required_fields ++ values optional_fields with
          | [] => Ok (TContainer typing_Dict [TAny; TAny])
          | _ :: _ =>
              rs <- mapM (fun kv => rewrite rw (snd kv)) required_fields ;;
              os <- mapM (fun kv => rewrite rw (snd kv)) optional_fields ;;
              u <- make_union (rs ++ os) ;;
              Ok (typing_Dict_of (TNominal str_) u)
          end
      | _ =>
          required' <- map_valuesM (rewrite rw) required_fields ;;
          optional' <- map_valuesM (rewrite rw) optional_fields ;;
          make_typed_dict required' optional'
      end
  | TTypedDict name annotations total =>
      annotations' <- map_valuesM (rewrite rw) annotations ;;
      Ok (TTypedDict name annotations' total)
  | TContainer g args =>
      match container_class g with
      | None => Ok typ                                (* generic_rewrite *)
      | Some cls =>
          match rw, g with
          | RewriteGenerator, typing_Generator =>
              RewriteGenerator_rewrite_Generator typ args
          | _, _ =>
              (* _rewrite_container *)
              if negb (String.eqb (module_ g) "typing")
              then Ok typ                  (* rewrite_malformed_container *)
              else
                elems <- mapM (rewrite rw) args ;;
                Ok (TContainer cls elems)
          end
      end
  | _ => Ok typ            (* rewrite_type_variable, generic_rewrite *)
  end.

Definition NoOpRewriter_rewrite (typ : type) : result type := Ok typ.

(** [ChainedRewriter(rewriters).rewrite] *)
Fixpoint ChainedRewriter_rewrite (rewriters : list rewriter) (typ : type)
  : result type :=
  match rewriters with
  | [] => Ok typ
  | rw :: rest => typ' <- rewrite rw typ ;; ChainedRewriter_rewrite rest typ'
  end.

Definition DEFAULT_REWRITER : list rewriter :=
  [RemoveEmptyContainers; RewriteConfigDict; RewriteLargeUnion 5;
   RewriteGenerator].

(** ** The shrinker *)

(** [d[key].append(value_type)] on a [defaultdict(list)]: a new key goes
    to the end. *)
Fixpoint append_value (d : list (string * list type)) (key : string)
    (value_type : type) : list (string * list type) :=
  match d with
  | [] => [(key, [value_type])]
  | (k, value_types) :: d' =>
      if String.eqb k key then (k, value_types ++ [value_type]) :: d'
      else (k, value_types) :: append_value d' key value_type
  end.

Definition append_items (d : list (string * list type)) (items : fields)
  : list (string * list type) :=
  fold_left (fun d kv => append_value d (fst kv) (snd kv)) items d.

(** The first loop of [shrink_typed_dict_types] *)
Definition key_value_types_dict (typed_dicts : list type)
  : list (string * list type) :=
  fold_left (fun d typed_dict => append_items d (fst (field_annotations typed_dict)))
            typed_dicts [].

Definition existing_optional_fields (typed_dicts : list type) : fields :=
  flat_map (fun typed_dict => snd (field_annotations typed_dict)) typed_dicts.

Definition merged_required_fields (typed_dicts : list type)
  : list (string * list type) :=
  filter (fun kv => Nat.eqb (List.length (snd kv)) (List.length typed_dicts))
         (key_value_types_dict typed_dicts).

(** The lists of [optional_fields] that come from [key_value_types_dict]
    are appended to afterwards; that dictionary is not read again. *)
Definition merged_optional_fields (typed_dicts : list type)
  : list (string * list type) :=
  append_items
    (filter (fun kv => negb (Nat.eqb (List.length (snd kv))
                                     (List.length typed_dicts)))
            (key_value_types_dict typed_dicts))
    (existing_optional_fields typed_dicts).

Section ShrinkTypedDicts.
(** [shrink_types(_, max_typed_dict_size)], for the recursive calls *)
Variable shrink_types_rec : list type -> result type.

Definition shrink_typed_dict_types_with (typed_dicts : list type)
    (max_typed_dict_size : option Z) : result type :=
  let required_fields := merged_required_fields typed_dicts in
  let optional_fields := merged_optional_fields typed_dicts in
  match max_typed_dict_size with
  | None => Raise TypeError       (* int > None *)
  | Some size =>
      if (Z.of_nat (List.length required_fields + List.length optional_fields)
            >? size)%Z
      then
        value_type <- shrink_types_rec
          (List.concat (values required_fields ++ values optional_fields)) ;;
        Ok (TContainer builtins_dict [TNominal str_; value_type])
      else
        required' <- map_valuesM shrink_types_rec required_fields ;;
        optional' <- map_valuesM shrink_types_rec optional_fields ;;
        make_typed_dict required' optional'
  end.
End ShrinkTypedDicts.

Definition first_arg (typ : type) : result type :=
  match get_args typ with
  | Some (a :: _) => Ok a
  | _ => Raise IndexError
  end.

(** [shrink_types], by recursion on a bound of the number of nested calls;
    [RecursionError] is the bound reached. *)
Fixpoint shrink_types_fuel (fuel : nat) (types : list type)
    (max_typed_dict_size : option Z) {struct fuel} : result type :=
  match fuel with
  | O => Raise RecursionError
  | S fuel' =>
      match types with
      | [] => Ok TAny
      | types_0 :: rest =>
          if forallb is_anonymous_typed_dict types then
            shrink_typed_dict_types_with
              (fun ts => shrink_types_fuel fuel' ts max_typed_dict_size)
              types max_typed_dict_size
          else if forallb (fun typ => types_equal typ types_0) rest then
            Ok types_0
          else if forallb is_list types then
            args <- mapM first_arg types ;;
            annotation <- shrink_types_fuel fuel' args max_typed_dict_size ;;
            Ok (TContainer typing_List [annotation])
          else
            all_dict_types <-
              mapM (rewrite RewriteAnonymousTypedDictToDict) types ;;
            make_union all_dict_types
      end
  end.

(** The size of a type bounds the depth of the calls it can cause. *)
Fixpoint type_size (t : type) : nat :=
  match t with
  | TContainer _ args => S (list_sum (map type_size args))
  | TAnon r o =>
      S (list_sum (map (fun kv => type_size (snd kv)) r)
         + list_sum (map (fun kv => type_size (snd kv)) o))
  | TTypedDict _ a _ => S (list_sum (map (fun kv => type_size (snd kv)) a))
  | TUnion ms => S (list_sum (map type_size ms))
  | TMeta _ => 2
  | _ => 1
  end.

Definition types_size (ts : list type) : nat := list_sum (map type_size ts).

Definition shrink_types (types : list type) (max_typed_dict_size : option Z)
  : result type :=
  shrink_types_fuel (S (types_size types)) types max_typed_dict_size.

Definition shrink_typed_dict_types (typed_dicts : list type)
    (max_typed_dict_size : option Z) : result type :=
  shrink_typed_dict_types_with
    (fun ts => shrink_types ts max_typed_dict_size)
    typed_dicts max_typed_dict_size.

(** ** Value inference *)

(** The runtime values [get_type] tells apart. *)
Inductive value : Type :=
| VClass (c : klass)                       (* a class object *)
| VFunction                                (* a function, lambda, method or builtin *)
| VGenerator                               (* a generator object *)
| VList (elems : list value)
| VSet (elems : list value)
| VDict (items : list (value * value))
| VDefaultDict (items : list (value * value))
| VTuple (elems : list value)
| VStr (s : string)
| VInt (n : Z)
| VObject (c : klass).                     (* an instance of any other class *)

Definition isinstance_str (v : value) : bool :=
  match v with VStr _ => true | _ => false end.

Definition str_of (v : value) : string :=
  match v with VStr s => s | _ => "" end.

Fixpoint get_type (obj : value) (max_typed_dict_size : option Z) {struct obj}
  : result type :=
  match obj with
  | VClass c => Ok (TMeta c)
  | VFunction => Ok TCallable
  | VGenerator => Ok (TContainer typing_Iterator [TAny])
  | VList elems =>
      ts <- mapM (fun e => get_type e max_typed_dict_size) elems ;;
      elem_type <- shrink_types ts max_typed_dict_size ;;
      Ok (TContainer builtins_list [elem_type])
  | VSet elems =>
      ts <- mapM (fun e => get_type e max_typed_dict_size) elems ;;
      elem_type <- shrink_types ts max_typed_dict_size ;;
      Ok (TContainer builtins_set [elem_type])
  | VDict items =>
      (* get_dict_type *)
      match items with
      | [] => Ok (TContainer typing_Dict [TAny; TAny])
      | _ :: _ =>
          if forallb (fun kv => isinstance_str (fst kv)) items
             && match max_typed_dict_size with
                | None => true
                | Some size => (Z.of_nat (List.length items) <=? size)%Z
                end
          then
            required_fields <-
              mapM (fun kv => t <- get_type (snd kv) max_typed_dict_size ;;
                              Ok (str_of (fst kv), t)) items ;;
            make_typed_dict required_fields []
          else
            ks <- mapM (fun kv => get_type (fst kv) max_typed_dict_size) items ;;
            key_type <- shrink_types ks max_typed_dict_size ;;
            vs <- mapM (fun kv => get_type (snd kv) max_typed_dict_size) items ;;
            val_type <- shrink_types vs max_typed_dict_size ;;
            Ok (TContainer typing_Dict [key_type; val_type])
      end
  | VDefaultDict items =>
      ks <- mapM (fun kv => get_type (fst kv) max_typed_dict_size) items ;;
      key_type <- shrink_types ks max_typed_dict_size ;;
      vs <- mapM (fun kv => get_type (snd kv) max_typed_dict_size) items ;;
      val_type <- shrink_types vs max_typed_dict_size ;;
      Ok (TContainer typing_DefaultDict [key_type; val_type])
  | VTuple elems =>
      ts <- mapM (fun e => get_type e max_typed_dict_size) elems ;;
      Ok (TContainer builtins_tuple ts)
  | VStr _ => Ok (TNominal str_)
  | VInt _ => Ok (TNominal int_)
  | VObject c => Ok (TNominal c)
  end.

Definition get_dict_type (dct : list (value * value))
    (max_typed_dict_size : option Z) : result type :=
  get_type (VDict dct) max_typed_dict_size.

(** ** Induction on classes and on types *)

Section KlassInd.
Variable P : klass -> Prop.
Hypothesis HKlass : forall n bases, Forall P bases -> P (Klass n bases).

Fixpoint klass_ind' (c : klass) : P c :=
  match c with
  | Klass n bases =>
      HKlass n bases
        ((fix go (l : list klass) : Forall P l :=
            match l with
            | [] => Forall_nil P
            | x :: l' => Forall_cons x (klass_ind' x) (go l')
            end) bases)
  end.
End KlassInd.

Section TypeInd.
Variable P : type -> Prop.
Hypothesis HAny : P TAny.
Hypothesis HNominal : forall c, P (TNominal c).
Hypothesis HMeta : forall c, P (TMeta c).
Hypothesis HCallable : P TCallable.
Hypothesis HEllipsis : P TEllipsis.
Hypothesis HContainer : forall g args, Forall P args -> P (TContainer g args).
Hypothesis HAnon : forall r o,
    Forall (fun kv => P (snd kv)) r -> Forall (fun kv => P (snd kv)) o ->
    P (TAnon r o).
Hypothesis HTypedDict : forall n a t,
    Forall (fun kv => P (snd kv)) a -> P (TTypedDict n a t).
Hypothesis HUnion : forall ms, Forall P ms -> P (TUnion ms).
Hypothesis HVar : forall n, P (TVar n).

Fixpoint type_ind' (t : type) : P t :=
  let go := fix go (l : list type) : Forall P l :=
    match l with
    | [] => Forall_nil P
    | x :: l' => Forall_cons x (type_ind' x) (go l')
    end in
  let gof := fix gof (d : fields) : Forall (fun kv => P (snd kv)) d :=
    match d with
    | [] => Forall_nil _
    | kv :: d' => Forall_cons kv (type_ind' (snd kv)) (gof d')
    end in
  match t with
  | TAny => HAny
  | TNominal c => HNominal c
  | TMeta c => HMeta c
  | TCallable => HCallable
  | TEllipsis => HEllipsis
  | TContainer g args => HContainer g args (go args)
  | TAnon r o => HAnon r o (gof r) (gof o)
  | TTypedDict n a t => HTypedDict n a t (gof a)
  | TUnion ms => HUnion ms (go ms)
  | TVar n => HVar n
  end.
End TypeInd.

(** ** Common-Ancestor-Union, as the specification words it *)

(** The ancestor chain of a class: upward while the class has exactly one
    direct base, the universal root excluded, from general to specific. *)
Fixpoint ancestor_chain (c : klass) : list klass :=
  if klass_eqb c object_ then []
  else
    match c with
    | Klass _ [b] => ancestor_chain b ++ [c]
    | Klass _ _ => [c]
    end.

Definition prefix {A : Type} (p l : list A) : Prop := exists s, l = p ++ s.

Definition common_prefix {A : Type} (p : list A) (chains : list (list A)) : Prop :=
  Forall (prefix p) chains.

Definition longest_common_prefix {A : Type} (p : list A)
    (chains : list (list A)) : Prop :=
  common_prefix p chains /\ forall q, common_prefix q chains -> prefix q p.

Definition Animal : klass := Klass "Animal" [object_].
Definition Dog : klass := Klass "Dog" [Animal].
Definition Cat : klass := Klass "Cat" [Animal].

(** ** Truncate-Large-Union's ancestor step, as the specification words it *)






Definition tint : type := TNominal int_.
Definition tstr : type := TNominal str_.
Definition Lone (n : string) : klass := Klass n [object_].

Definition unrelated_six : list type :=
  [TNominal (Lone "A"); TNominal (Lone "B"); TNominal (Lone "C");
   TNominal (Lone "D"); TNominal (Lone "E"); TNominal (Lone "F")].



(** ** Dict inference, as the specification words it *)

(** all keys are text, and the cap is unset or the field count is within it *)
Definition record_allowed (dct : list (value * value)) (cap : option Z) : bool :=
  forallb (fun kv => isinstance_str (fst kv)) dct
  && match cap with
     | None => true
     | Some size => (Z.of_nat (List.length dct) <=? size)%Z
     end.

(** The size of the value lists of a dictionary of lists *)
Definition groups_size (d : list (string * list type)) : nat :=
  list_sum (map (fun kv => types_size (snd kv)) d).

Definition fields_size (d : fields) : nat :=
  list_sum (map (fun kv => type_size (snd kv)) d).

(** ** Record Merge, as the specification words it *)

(** the value types a dictionary gives for a name *)
Definition lookup_all {V : Type} (k : string) (d : list (string * V)) : list V :=
  values (filter (fun kv => String.eqb (fst kv) k) d).

(** one entry per record in which the name is required; the same for
    optional *)
Definition required_values (k : string) (records : list type) : list type :=
  flat_map (fun td => lookup_all k (fst (field_annotations td))) records.

Definition optional_values (k : string) (records : list type) : list type :=
  flat_map (fun td => lookup_all k (snd (field_annotations td))) records.

Definition required_in (k : string) (record : type) : Prop :=
  In k (keys (fst (field_annotations record))).


Definition has_key {V : Type} (k : string) (d : list (string * V)) : bool :=
  existsb (fun kv => String.eqb (fst kv) k) d.

Fixpoint nodup_keys {V : Type} (d : list (string * V)) : bool :=
  match d with
  | [] => true
  | (k, _) :: d' => negb (has_key k d') && nodup_keys d'
  end.

(** A type as Python can build it: the keys of a dictionary are distinct,
    the required and the optional keys of a record are disjoint, a List alias
    has its argument and a union has members. *)
Fixpoint well_formed (t : type) : bool :=
  match t with
  | TContainer g args =>
      forallb well_formed args
      && (negb (String.eqb (name_of_generic g) "List")
          || negb (Nat.eqb (List.length args) 0))
  | TAnon r o =>
      nodup_keys r && nodup_keys o && isdisjoint (keys r) (keys o)
      && forallb (fun kv => well_formed (snd kv)) r
      && forallb (fun kv => well_formed (snd kv)) o
  | TTypedDict _ a _ =>
      nodup_keys a && forallb (fun kv => well_formed (snd kv)) a
  | TUnion ms =>
      forallb well_formed ms && negb (Nat.eqb (List.length ms) 0)
  | _ => true
  end.

(** the list a dictionary of lists holds for a key, [[]] without the key *)
Definition group_lookup (d : list (string * list type)) (k : string) : list type :=
  match find (fun kv => String.eqb (fst kv) k) d with
  | Some kv => snd kv
  | None => []
  end.

(** a dictionary of lists with distinct keys and no empty list *)
Definition groups_ok (d : list (string * list type)) : Prop :=
  nodup_keys d = true /\ Forall (fun kv => snd kv <> []) d.

(** an anonymous record as [make_typed_dict] builds it *)
Definition record_ok (td : type) : bool :=
  match td with
  | TAnon r o => nodup_keys r && nodup_keys o && isdisjoint (keys r) (keys o)
  | _ => false
  end.

(** a result of [Union[...]]: no union among the members of a union *)
Definition flat (t : type) : bool :=
  match t with
  | TUnion ms => negb (Nat.eqb (List.length ms) 0) && forallb (fun m => negb (is_union m)) ms
  | _ => true
  end.

Definition groups_all (P : type -> Prop) (d : list (string * list type)) : Prop :=
  Forall (fun kv => Forall P (snd kv)) d.

Definition fields_all (P : type -> Prop) (d : fields) : Prop :=
  Forall (fun kv => P (snd kv)) d.


Definition record_a : type := TAnon [("a", tint)] [].
Definition record_ab : type := TAnon [("a", tint); ("b", tstr)] [].

(** a type [shrink_types] does not demote: no anonymous record, or one
    whose fields, and those of the records that are its field types, are
    within the cap *)
Fixpoint fits (cap : option Z) (t : type) : bool :=
  match t with
  | TAnon r o =>
      match cap with
      | None => false
      | Some size =>
          nodup_keys r && nodup_keys o && isdisjoint (keys r) (keys o)
          && (Z.of_nat (List.length r + List.length o) <=? size)%Z
          && forallb (fun kv => fits cap (snd kv)) r
          && forallb (fun kv => fits cap (snd kv)) o
      end
  | _ => true
  end.

Definition single (kv : string * type) : string * list type :=
  (fst kv, [snd kv]).

(** ** Equality of results, for order-insensitivity *)

Definition eqv (a b : type) : Prop := type_eqb a b = true.

(** two results are the same: both raise, or both return, equal types *)
Definition same_result (r1 r2 : result type) : Prop :=
  match r1, r2 with
  | Ok a, Ok b => eqv a b
  | Raise _, Raise _ => True
  | _, _ => False
  end.

(** the same types up to their order and up to [==] *)
Definition perm_eqv (l l' : list type) : Prop :=
  exists m, Permutation l m /\ Forall2 eqv m l'.

(** two runs of [mapM] over permuted inputs agree *)
Definition same_list_result {B : Type} (r1 r2 : result (list B)) : Prop :=
  match r1, r2 with
  | Ok ys, Ok ys' => Permutation ys ys'
  | Raise _, Raise _ => True
  | _, _ => False
  end.

(** every field type of the records, the required ones first *)
Definition all_field_values (records : list type) : list type :=
  flat_map (fun td => values (fst (field_annotations td))) records
  ++ flat_map (fun td => values (snd (field_annotations td))) records.

(** two runs of [map_valuesM] agree: both raise, or both return equal
    dictionaries *)
Definition same_fields_result (r1 r2 : result fields) : Prop :=
  match r1, r2 with
  | Ok d, Ok d' => dict_eqb type_eqb d d' = true
  | Raise _, Raise _ => True
  | _, _ => False
  end.

(** ** The standard pipeline on inferred types *)



(** A type every rewriter returns as it is: no union, no TypedDict, and no
    typing alias that has a [rewrite_] method. *)
Definition is_frozen (t : type) : bool :=
  match t with
  | TAnon _ _ | TTypedDict _ _ _ | TUnion _ => false
  | TContainer g _ =>
      match container_class g with
      | None => true
      | Some _ => negb (String.eqb (module_ g) "typing")
      end
  | _ => true
  end.



(** no two members are equal *)
Fixpoint distinct (ms : list type) : bool :=
  match ms with
  | [] => true
  | m :: rest => forallb (fun u => negb (type_eqb m u)) rest && distinct rest
  end.



Section ValueInd.
Variable P : value -> Prop.
Hypothesis HClass : forall c, P (VClass c).
Hypothesis HFunction : P VFunction.
Hypothesis HGenerator : P VGenerator.
Hypothesis HList : forall es, Forall P es -> P (VList es).
Hypothesis HSet : forall es, Forall P es -> P (VSet es).
Hypothesis HDict : forall items,
    Forall (fun kv => P (fst kv) /\ P (snd kv)) items -> P (VDict items).
Hypothesis HDefaultDict : forall items,
    Forall (fun kv => P (fst kv) /\ P (snd kv)) items -> P (VDefaultDict items).
Hypothesis HTuple : forall es, Forall P es -> P (VTuple es).
Hypothesis HStr : forall s, P (VStr s).
Hypothesis HInt : forall n, P (VInt n).
Hypothesis HObject : forall c, P (VObject c).

End ValueInd.


(** what [RewriteConfigDict] reads off a member: [None] when it is no Dict,
    else its first argument, if any *)
Definition dict_key (m : type) : option (option type) :=
  match m with
  | TContainer g args =>
      if String.eqb (name_of_generic g) "Dict" then Some (hd_error args)
      else None
  | _ => None
  end.

(** whether the loop of [RewriteConfigDict.rewrite_Union] ends in its early
    [return union] *)
Fixpoint aborts (ks : list (option (option type))) (key_type : option type)
  : bool :=
  match ks with
  | [] => false
  | None :: _ => true
  | Some None :: _ => false
  | Some (Some k) :: ks' =>
      let kt := match key_type with Some kt => kt | None => k end in
      if negb (type_eqb kt k) then true else aborts ks' (Some kt)
  end.

(** a Dict whose key type equals [k] *)
Definition keyed (k : type) (m : type) : Prop :=
  exists km, dict_key m = Some (Some km) /\ type_eqb k km = true.



(** a result that is not the bound of [shrink_types_fuel] being reached *)
Definition within_bound {A : Type} (r : result A) : Prop :=
  r <> Raise RecursionError.

(** ** Constructors of iterator and generator types *)

Definition make_iterator (typ : type) : type :=
  TContainer typing_Iterator [typ].

Definition make_generator (yield_typ send_typ return_typ : type) : type :=
  TContainer typing_Generator [yield_typ; send_typ; return_typ].

Definition tnone : type := TNominal NoneType.

Definition six_classes : list value :=
  [VObject (Lone "A"); VObject (Lone "B"); VObject (Lone "C");
   VObject (Lone "D"); VObject (Lone "E"); VObject (Lone "F")].

(** the values whose type is a builtin alias *)
Definition is_sequence_value (v : value) : bool :=
  match v with
  | VList _ | VSet _ | VTuple _ => true
  | _ => false
  end.

(** the value types of a Dict alias: its arguments after the key type *)
Definition dict_values (m : type) : list type :=
  match m with
  | TContainer _ (_ :: vs) => vs
  | _ => []
  end.

Definition Poodle : klass := Klass "Poodle" [Dog].

(** what RewriteAnonymousTypedDictToDict returns: no anonymous record, and
    no union that has an anonymous record or a union among its members *)
Definition flattened (t : type) : bool :=
  match t with
  | TAnon _ _ => false
  | TUnion ms =>
      forallb (fun m => negb (is_anonymous_typed_dict m) && negb (is_union m)) ms
  | _ => true
  end.





(** * Properties *)

(** ** Equality tests *)

Lemma tuple_eqb_refl {A : Type} (eq : A -> A -> bool) (l : list A) :
  Forall (fun x => eq x x = true) l -> tuple_eqb eq l l = true.
Proof.
  induction 1 as [|x l Hx _ IH]; simpl; [reflexivity|].
  now rewrite Hx, IH.
Qed.

Lemma tuple_eqb_eq {A : Type} (eq : A -> A -> bool) (l1 : list A) :
  Forall (fun x => forall y, eq x y = true -> x = y) l1 ->
  forall l2, tuple_eqb eq l1 l2 = true -> l1 = l2.
Proof.
  induction 1 as [|x l Hx _ IH]; intros [|y l2]; simpl; try discriminate;
    [reflexivity|].
  intros H. apply andb_prop in H as [H1 H2].
  f_equal; [now apply Hx | now apply IH].
Qed.

Lemma klass_eqb_refl (c : klass) : klass_eqb c c = true.
Proof.
  induction c as [n bases IH] using klass_ind'. simpl.
  rewrite String.eqb_refl. simpl. now apply tuple_eqb_refl.
Qed.

Lemma klass_eqb_eq (a b : klass) : klass_eqb a b = true -> a = b.
Proof.
  revert b. induction a as [n bases IH] using klass_ind'.
  intros [n2 bs2]. simpl. intros H. apply andb_prop in H as [H1 H2].
  apply String.eqb_eq in H1. subst.
  f_equal. now apply tuple_eqb_eq with (eq := klass_eqb).
Qed.

Lemma klass_eqb_iff (a b : klass) : klass_eqb a b = true <-> a = b.
Proof.
  split; [apply klass_eqb_eq | intros ->; apply klass_eqb_refl].
Qed.

Lemma klass_eqb_neq (a b : klass) : klass_eqb a b = false <-> a <> b.
Proof.
  rewrite <- klass_eqb_iff. destruct (klass_eqb a b); split; congruence.
Qed.

Lemma generic_eqb_refl (g : generic) : generic_eqb g g = true.
Proof. now destruct g. Qed.

Lemma existsb_here {A : Type} (p : A -> bool) (x : A) (l : list A) :
  In x l -> p x = true -> existsb p l = true.
Proof. intros Hin Hp. apply existsb_exists. now exists x. Qed.

Lemma set_eqb_refl {A : Type} (eq : A -> A -> bool) (l : list A) :
  Forall (fun x => eq x x = true) l -> set_eqb eq l l = true.
Proof.
  intros H. rewrite Forall_forall in H. unfold set_eqb.
  apply andb_true_intro; split; apply forallb_forall; intros x Hx;
    apply existsb_here with (x := x); auto.
Qed.

Lemma dict_eqb_refl {A : Type} (eq : A -> A -> bool) (d : list (string * A)) :
  Forall (fun kv => eq (snd kv) (snd kv) = true) d -> dict_eqb eq d d = true.
Proof.
  intros H. apply set_eqb_refl. eapply Forall_impl; [|exact H].
  intros kv Hkv. unfold item_eqb. now rewrite String.eqb_refl, Hkv.
Qed.

Lemma type_eqb_refl (t : type) : type_eqb t t = true.
Proof.
  induction t using type_ind'; simpl;
    rewrite ?klass_eqb_refl, ?String.eqb_refl, ?generic_eqb_refl,
      ?Bool.eqb_reflx; simpl; auto.
  - now apply tuple_eqb_refl.
  - rewrite !dict_eqb_refl; auto.
  - now apply dict_eqb_refl.
  - now apply set_eqb_refl.
Qed.

(** ** RewriteMostSpecificCommonBase *)

Lemma _compute_bases_loop_chain (c : klass) :
  forall acc, _compute_bases_loop c acc = acc ++ rev (ancestor_chain c).
Proof.
  induction c as [n bases IH] using klass_ind'. intros acc.
  cbn [_compute_bases_loop ancestor_chain].
  destruct (klass_eqb (Klass n bases) object_).
  - simpl. now rewrite app_nil_r.
  - destruct bases as [|b [|b' bases]]; try reflexivity.
    inversion IH as [|? ? Hb _]; subst.
    rewrite Hb, rev_app_distr. simpl. now rewrite <- app_assoc.
Qed.

Lemma _compute_bases_chain (c : klass) : _compute_bases c = ancestor_chain c.
Proof.
  unfold _compute_bases. rewrite _compute_bases_loop_chain. simpl.
  apply rev_involutive.
Qed.

Lemma prefix_nil {A : Type} (l : list A) : prefix [] l.
Proof. now exists l. Qed.

Lemma prefix_cons_inv {A : Type} (x y : A) (p l : list A) :
  prefix (x :: p) (y :: l) -> x = y /\ prefix p l.
Proof. intros [s Hs]. simpl in Hs. inversion Hs; subst. split; [reflexivity | now exists s]. Qed.

Lemma prefix_cons {A : Type} (x : A) (p l : list A) :
  prefix p l -> prefix (x :: p) (x :: l).
Proof. intros [s ->]. now exists s. Qed.

Lemma prefix_trans {A : Type} (p q l : list A) :
  prefix p q -> prefix q l -> prefix p l.
Proof. intros [s ->] [s' ->]. exists (s ++ s'). now rewrite app_assoc. Qed.

Lemma _merge_common_bases_left (a b : list klass) :
  prefix (_merge_common_bases a b) a.
Proof.
  revert b. induction a as [|x a IH]; intros [|y b]; simpl;
    try apply prefix_nil.
  destruct (klass_eqb x y) eqn:E; [|apply prefix_nil].
  apply klass_eqb_eq in E. subst. now apply prefix_cons.
Qed.

Lemma _merge_common_bases_right (a b : list klass) :
  prefix (_merge_common_bases a b) b.
Proof.
  revert b. induction a as [|x a IH]; intros [|y b]; simpl;
    try apply prefix_nil.
  destruct (klass_eqb x y) eqn:E; [|apply prefix_nil].
  now apply prefix_cons.
Qed.

Lemma _merge_common_bases_greatest (q a b : list klass) :
  prefix q a -> prefix q b -> prefix q (_merge_common_bases a b).
Proof.
  revert a b. induction q as [|z q IH]; intros a b Ha Hb; [apply prefix_nil|].
  destruct a as [|x a]; [destruct Ha as [s Hs]; discriminate|].
  destruct b as [|y b]; [destruct Hb as [s Hs]; discriminate|].
  apply prefix_cons_inv in Ha as [-> Ha]. apply prefix_cons_inv in Hb as [-> Hb].
  simpl. rewrite klass_eqb_refl. apply prefix_cons. now apply IH.
Qed.

Lemma fold_merge_longest (rest : list (list klass)) :
  forall first,
    longest_common_prefix (fold_left _merge_common_bases rest first)
                          (first :: rest).
Proof.
  induction rest as [|second rest IH]; intros first; simpl.
  - split.
    + constructor; [now exists [] ; rewrite app_nil_r | constructor].
    + intros q Hq. now inversion Hq.
  - destruct (IH (_merge_common_bases first second)) as [Hc Hg]. split.
    + inversion Hc as [|? ? Hm Hrest]; subst.
      constructor; [|constructor]; auto.
      * eapply prefix_trans; [exact Hm | apply _merge_common_bases_left].
      * eapply prefix_trans; [exact Hm | apply _merge_common_bases_right].
    + intros q Hq. inversion Hq as [|? ? H1 Hq']; subst.
      inversion Hq' as [|? ? H2 Hq'']; subst.
      apply Hg. constructor; [|assumption].
      now apply _merge_common_bases_greatest.
Qed.

Lemma mapM_as_klass (ks : list klass) : mapM as_klass (map TNominal ks) = Ok ks.
Proof. induction ks as [|k ks IH]; simpl; [reflexivity | now rewrite IH]. Qed.

(** C8: on a union of classes, Common-Ancestor-Union computes each
    member's chain as the single-inheritance ancestor chain (general to
    specific, the root excluded), and returns the last element of the longest
    common prefix of all chains, or the union itself when that prefix is
    empty; the union of Dog and Cat, both extending Animal, becomes Animal. *)
Theorem C8_common_ancestor_union :
  (forall c, _compute_bases c = ancestor_chain c) /\
  (forall k ks,
     exists p,
       longest_common_prefix p (map ancestor_chain (k :: ks)) /\
       rewrite RewriteMostSpecificCommonBase (TUnion (map TNominal (k :: ks)))
       = Ok (match last_opt p with
             | Some c => TNominal c
             | None => TUnion (map TNominal (k :: ks))
             end)) /\
  rewrite RewriteMostSpecificCommonBase (TUnion [TNominal Dog; TNominal Cat])
  = Ok (TNominal Animal).
Proof.
  split; [exact _compute_bases_chain|]. split; [|reflexivity].
  intros k ks.
  exists (fold_left _merge_common_bases (map ancestor_chain ks) (ancestor_chain k)).
  split; [apply (fold_merge_longest (map ancestor_chain ks))|].
  cbn [rewrite]. unfold RewriteMostSpecificCommonBase_rewrite_Union.
  rewrite mapM_as_klass. cbn [bind map reduce].
  rewrite _compute_bases_chain.
  replace (map _compute_bases ks) with (map ancestor_chain ks)
    by (apply map_ext; intros; now rewrite _compute_bases_chain).
  now destruct (last_opt _).
Qed.

(** ** RemoveEmptyContainers *)

(** C1: on the union of List[Any] and List[int] the pass returns the union
    of both members, and not List[int]: the union is rebuilt from the members
    of the original union, the empty container included. *)
Theorem C1_remove_empty_containers_rebuilds_all :
  rewrite RemoveEmptyContainers
    (TUnion [TContainer typing_List [TAny]; TContainer typing_List [tint]])
  = Ok (TUnion [TContainer typing_List [TAny]; TContainer typing_List [tint]])
  /\ rewrite RemoveEmptyContainers
       (TUnion [TContainer typing_List [TAny]; TContainer typing_List [tint]])
     <> Ok (TContainer typing_List [tint]).
Proof. split; [reflexivity | discriminate]. Qed.

(** ** RewriteLargeUnion *)







(** ** Dict inference *)

Lemma isdisjoint_nil_r (l : list string) : isdisjoint l [] = true.
Proof. unfold isdisjoint. now apply forallb_forall. Qed.

Lemma make_typed_dict_required (required : fields) :
  make_typed_dict required [] = Ok (TAnon required []).
Proof. unfold make_typed_dict. simpl. now rewrite isdisjoint_nil_r. Qed.

Lemma mapM_required_fields (cap : option Z) (dct : list (value * value)) :
  mapM (fun kv => t <- get_type (snd kv) cap ;; Ok (str_of (fst kv), t)) dct
  = ts <- mapM (fun kv => get_type (snd kv) cap) dct ;;
    Ok (combine (map (fun kv => str_of (fst kv)) dct) ts).
Proof.
  induction dct as [|kv dct IH]; simpl; [reflexivity|].
  destruct (get_type (snd kv) cap); simpl; [|reflexivity].
  rewrite IH.
  destruct (mapM (fun kv0 => get_type (snd kv0) cap) dct); reflexivity.
Qed.

Lemma get_dict_type_unfold (kv : value * value) (dct : list (value * value))
    (cap : option Z) :
  get_dict_type (kv :: dct) cap =
  if record_allowed (kv :: dct) cap then
    required_fields <-
      mapM (fun kv => t <- get_type (snd kv) cap ;; Ok (str_of (fst kv), t))
           (kv :: dct) ;;
    make_typed_dict required_fields []
  else
    ks <- mapM (fun kv => get_type (fst kv) cap) (kv :: dct) ;;
    key_type <- shrink_types ks cap ;;
    vs <- mapM (fun kv => get_type (snd kv) cap) (kv :: dct) ;;
    val_type <- shrink_types vs cap ;;
    Ok (TContainer typing_Dict [key_type; val_type]).
Proof. reflexivity. Qed.

(** C6: the empty mapping is inferred as Dict[Any, Any]; a mapping whose
    keys are all text and whose size is within the cap (or the cap is unset)
    as the anonymous record with every key required, of the inferred value
    types, and no optional field; any other mapping as the Dict of the shrunk
    key types and the shrunk value types.  {"a": 1} under cap 0 is
    Dict[str, int]. *)
Theorem C6_dict_inference :
  (forall cap, get_dict_type [] cap = Ok (TContainer typing_Dict [TAny; TAny]))
  /\ (forall kv dct cap ts,
        record_allowed (kv :: dct) cap = true ->
        mapM (fun kv => get_type (snd kv) cap) (kv :: dct) = Ok ts ->
        get_dict_type (kv :: dct) cap
        = Ok (TAnon (combine (map (fun kv => str_of (fst kv)) (kv :: dct)) ts)
                    []))
  /\ (forall kv dct cap,
        record_allowed (kv :: dct) cap = false ->
        get_dict_type (kv :: dct) cap
        = ks <- mapM (fun kv => get_type (fst kv) cap) (kv :: dct) ;;
          key_type <- shrink_types ks cap ;;
          vs <- mapM (fun kv => get_type (snd kv) cap) (kv :: dct) ;;
          val_type <- shrink_types vs cap ;;
          Ok (TContainer typing_Dict [key_type; val_type]))
  /\ get_dict_type [(VStr "a", VInt 1)] (Some 0%Z)
     = Ok (TContainer typing_Dict [tstr; tint]).
Proof.
  split; [reflexivity|]. split; [|split; [|reflexivity]].
  - intros kv dct cap ts Hrec Hts.
    rewrite get_dict_type_unfold, Hrec, mapM_required_fields, Hts.
    cbn [bind]. apply make_typed_dict_required.
  - intros kv dct cap Hrec. now rewrite get_dict_type_unfold, Hrec.
Qed.

Lemma C6_dict_inference_witness :
  get_dict_type [(VStr "a", VInt 1); (VStr "b", VStr "x")] None
  = Ok (TAnon [("a", tint); ("b", tstr)] [])
  /\ get_dict_type [(VInt 1, VInt 1)] (Some 3%Z)
     = Ok (TContainer typing_Dict [tint; tint]).
Proof.
  destruct C6_dict_inference as (_ & H2 & H3 & _). split.
  - apply (H2 (VStr "a", VInt 1) [(VStr "b", VStr "x")] None [tint; tstr]);
      reflexivity.
  - apply (H3 (VInt 1, VInt 1) [] (Some 3%Z)). reflexivity.
Defined.

(** ** The shrinker: the bound on nested calls is never reached *)

Lemma types_size_app (l1 l2 : list type) :
  types_size (l1 ++ l2) = types_size l1 + types_size l2.
Proof. unfold types_size. now rewrite map_app, list_sum_app. Qed.

Lemma groups_size_append_value (d : list (string * list type)) k v :
  groups_size (append_value d k v) = groups_size d + type_size v.
Proof.
  induction d as [|[k' vs] d IH]; simpl.
  - unfold groups_size. simpl. unfold types_size. simpl. lia.
  - destruct (String.eqb k' k); unfold groups_size in *; simpl in *.
    + rewrite types_size_app. unfold types_size. simpl. lia.
    + rewrite IH. lia.
Qed.

Lemma groups_size_append_items (items : fields) :
  forall d, groups_size (append_items d items) = groups_size d + fields_size items.
Proof.
  induction items as [|kv items IH]; intros d; unfold append_items in *; simpl.
  - unfold fields_size. simpl. lia.
  - rewrite IH, groups_size_append_value. unfold fields_size. simpl. lia.
Qed.

Lemma groups_size_filter (p : string * list type -> bool) d :
  groups_size (filter p d) + groups_size (filter (fun kv => negb (p kv)) d)
  = groups_size d.
Proof.
  induction d as [|kv d IH]; simpl; [reflexivity|].
  unfold groups_size in *. destruct (p kv); simpl; lia.
Qed.

Lemma groups_size_key_value_types_dict_from (tds : list type) :
  forall d,
    groups_size
      (fold_left (fun d td => append_items d (fst (field_annotations td))) tds d)
    = groups_size d
      + list_sum (map (fun td => fields_size (fst (field_annotations td))) tds).
Proof.
  induction tds as [|td tds IH]; intros d; simpl; [lia|].
  rewrite IH, groups_size_append_items. lia.
Qed.

Lemma fields_size_existing_optional (tds : list type) :
  fields_size (existing_optional_fields tds)
  = list_sum (map (fun td => fields_size (snd (field_annotations td))) tds).
Proof.
  induction tds as [|td tds IH]; simpl; [reflexivity|].
  unfold existing_optional_fields, fields_size in *. simpl.
  rewrite map_app, list_sum_app. now rewrite IH.
Qed.

Lemma types_size_anonymous (tds : list type) :
  forallb is_anonymous_typed_dict tds = true ->
  types_size tds
  = List.length tds
    + list_sum (map (fun td => fields_size (fst (field_annotations td))) tds)
    + list_sum (map (fun td => fields_size (snd (field_annotations td))) tds).
Proof.
  induction tds as [|td tds IH]; simpl; [reflexivity|].
  intros H. apply andb_prop in H as [Ha Hr].
  unfold types_size in *. simpl. rewrite (IH Hr).
  destruct td; try discriminate. simpl. unfold fields_size. lia.
Qed.

Lemma merged_fields_size (tds : list type) :
  forallb is_anonymous_typed_dict tds = true ->
  groups_size (merged_required_fields tds)
  + groups_size (merged_optional_fields tds) + List.length tds
  = types_size tds.
Proof.
  intros H. rewrite (types_size_anonymous _ H).
  unfold merged_required_fields, merged_optional_fields.
  rewrite groups_size_append_items, fields_size_existing_optional.
  rewrite Nat.add_assoc, groups_size_filter.
  unfold key_value_types_dict.
  rewrite groups_size_key_value_types_dict_from. unfold groups_size. simpl. lia.
Qed.

Lemma types_size_concat_values (d : list (string * list type)) :
  types_size (List.concat (values d)) = groups_size d.
Proof.
  induction d as [|kv d IH]; simpl; [reflexivity|].
  rewrite types_size_app, IH. reflexivity.
Qed.

Lemma groups_size_In (d : list (string * list type)) kv :
  In kv d -> types_size (snd kv) <= groups_size d.
Proof.
  induction d as [|kv' d IH]; simpl; [tauto|].
  unfold groups_size in *. simpl. intros [->|H]; [lia|].
  specialize (IH H). lia.
Qed.

Lemma map_valuesM_ext {A B : Type} (f g : A -> result B) (d : list (string * A)) :
  (forall kv, In kv d -> f (snd kv) = g (snd kv)) ->
  map_valuesM f d = map_valuesM g d.
Proof.
  induction d as [|[k v] d IH]; intros H; simpl; [reflexivity|].
  pose proof (H (k, v) (or_introl eq_refl)) as Hv. simpl in Hv. rewrite Hv.
  rewrite IH; [reflexivity|].
  intros kv Hkv. apply H. now right.
Qed.

Lemma shrink_typed_dict_types_with_ext (s1 s2 : list type -> result type)
    (tds : list type) (cap : option Z) :
  tds <> [] ->
  forallb is_anonymous_typed_dict tds = true ->
  (forall l, types_size l < types_size tds -> s1 l = s2 l) ->
  shrink_typed_dict_types_with s1 tds cap
  = shrink_typed_dict_types_with s2 tds cap.
Proof.
  intros Hne Hall Hext. unfold shrink_typed_dict_types_with.
  pose proof (merged_fields_size tds Hall) as Hsz.
  assert (0 < List.length tds) as Hlen
      by (destruct tds; [congruence | simpl; lia]).
  destruct cap as [size|]; [|reflexivity].
  destruct (_ >? size)%Z.
  - rewrite Hext; [reflexivity|].
    rewrite List.concat_app, types_size_app, !types_size_concat_values. lia.
  - rewrite (map_valuesM_ext s1 s2 (merged_required_fields tds)).
    2:{ intros kv Hkv. apply Hext.
        pose proof (groups_size_In _ _ Hkv). lia. }
    rewrite (map_valuesM_ext s1 s2 (merged_optional_fields tds)); [reflexivity|].
    intros kv Hkv. apply Hext.
    pose proof (groups_size_In _ _ Hkv). lia.
Qed.

Lemma first_arg_size (t a : type) :
  first_arg t = Ok a -> type_size a < type_size t.
Proof.
  destruct t; simpl; try discriminate.
  - intros H. inversion H; subst. simpl. lia.
  - destruct args as [|x args]; [discriminate|]. intros H. inversion H; subst.
    simpl. lia.
  - destruct members as [|x ms]; [discriminate|]. intros H. inversion H; subst.
    simpl. lia.
Qed.

Lemma mapM_first_arg_size (types args : list type) :
  types <> [] ->
  mapM first_arg types = Ok args -> types_size args < types_size types.
Proof.
  revert args. induction types as [|t types IH]; [congruence|].
  intros args _. simpl.
  destruct (first_arg t) as [a|] eqn:Ea; [|discriminate]. simpl.
  destruct (mapM first_arg types) as [args'|] eqn:Em; [|discriminate]. simpl.
  intros H. inversion H; subst. apply first_arg_size in Ea.
  unfold types_size in *. simpl.
  destruct types as [|t' types'].
  - simpl in Em. inversion Em; subst. simpl. lia.
  - specialize (IH args' ltac:(congruence) eq_refl). lia.
Qed.

Lemma shrink_types_fuel_stable (n : nat) :
  forall types cap f1 f2,
    types_size types < n -> n <= f1 -> n <= f2 ->
    shrink_types_fuel f1 types cap = shrink_types_fuel f2 types cap.
Proof.
  induction n as [|n IH]; intros types cap f1 f2 Hsz H1 H2; [lia|].
  destruct f1 as [|f1]; [lia|]. destruct f2 as [|f2]; [lia|].
  cbn [shrink_types_fuel].
  destruct types as [|t0 rest]; [reflexivity|].
  destruct (forallb is_anonymous_typed_dict (t0 :: rest)) eqn:Hanon.
  - apply shrink_typed_dict_types_with_ext; [congruence | assumption |].
    intros l Hl. apply IH; lia.
  - destruct (forallb _ rest); [reflexivity|].
    destruct (forallb is_list (t0 :: rest)); [|reflexivity].
    destruct (mapM first_arg (t0 :: rest)) as [args|] eqn:Em; [|reflexivity].
    cbn [bind]. apply mapM_first_arg_size in Em; [|congruence].
    rewrite (IH args cap f1 f2); [reflexivity| lia | lia | lia].
Qed.

Lemma shrink_types_fuel_enough (fuel : nat) (types : list type) (cap : option Z) :
  types_size types < fuel ->
  shrink_types_fuel fuel types cap = shrink_types types cap.
Proof.
  intros H. unfold shrink_types.
  apply shrink_types_fuel_stable with (n := S (types_size types)); lia.
Qed.

(** The body of [shrink_types], its recursive calls being [shrink_types]
    itself. *)
Lemma shrink_types_unfold (types : list type) (cap : option Z) :
  shrink_types types cap =
  match types with
  | [] => Ok TAny
  | types_0 :: rest =>
      if forallb is_anonymous_typed_dict types then
        shrink_typed_dict_types types cap
      else if forallb (fun typ => types_equal typ types_0) rest then
        Ok types_0
      else if forallb is_list types then
        args <- mapM first_arg types ;;
        annotation <- shrink_types args cap ;;
        Ok (TContainer typing_List [annotation])
      else
        all_dict_types <- mapM (rewrite RewriteAnonymousTypedDictToDict) types ;;
        make_union all_dict_types
  end.
Proof.
  unfold shrink_types at 1. cbn [shrink_types_fuel].
  destruct types as [|t0 rest]; [reflexivity|].
  destruct (forallb is_anonymous_typed_dict (t0 :: rest)) eqn:Hanon.
  - apply shrink_typed_dict_types_with_ext; [congruence | assumption |].
    intros l Hl. apply shrink_types_fuel_enough. lia.
  - destruct (forallb _ rest); [reflexivity|].
    destruct (forallb is_list (t0 :: rest)); [|reflexivity].
    destruct (mapM first_arg (t0 :: rest)) as [args|] eqn:Em; [|reflexivity].
    cbn [bind]. apply mapM_first_arg_size in Em; [|congruence].
    rewrite shrink_types_fuel_enough; [reflexivity | lia].
Qed.

(** ** [shrink_types] does not reach its bound *)

Lemma within_bound_bind {A B : Type} (m : result A) (f : A -> result B) :
  within_bound m -> (forall a, m = Ok a -> within_bound (f a)) ->
  within_bound (bind m f).
Proof.
  unfold within_bound. destruct m as [a|e]; simpl; intros Hm Hf;
    [now apply Hf | congruence].
Qed.

Lemma within_bound_mapM {A B : Type} (f : A -> result B) (l : list A) :
  Forall (fun x => within_bound (f x)) l -> within_bound (mapM f l).
Proof.
  induction 1 as [|x l Hx _ IH]; simpl; [discriminate|].
  apply within_bound_bind; [assumption|]. intros y _.
  apply within_bound_bind; [assumption|]. discriminate.
Qed.

Lemma within_bound_map_valuesM {A B : Type} (f : A -> result B)
    (d : list (string * A)) :
  Forall (fun kv => within_bound (f (snd kv))) d ->
  within_bound (map_valuesM f d).
Proof.
  induction 1 as [|[k v] d Hx _ IH]; simpl; [discriminate|].
  apply within_bound_bind; [assumption|]. intros y _.
  apply within_bound_bind; [assumption|]. discriminate.
Qed.

Lemma within_bound_make_union (params : list type) :
  within_bound (make_union params).
Proof.
  unfold make_union, within_bound.
  destruct (deduplicate (flatten params)) as [|t [|t' ms]]; discriminate.
Qed.

Lemma within_bound_rewrite_anonymous (t : type) :
  within_bound (rewrite RewriteAnonymousTypedDictToDict t).
Proof.
  induction t using type_ind'; try discriminate; cbn [rewrite].
  - destruct (container_class g); [|discriminate].
    assert (within_bound
              (elems <- mapM (rewrite RewriteAnonymousTypedDictToDict) args ;;
               Ok (TContainer g0 elems))) as Hb.
    { apply within_bound_bind; [now apply within_bound_mapM | discriminate]. }
    destruct g; simpl; try discriminate; exact Hb.
  - destruct (values r ++ values o); [discriminate|].
    apply within_bound_bind; [now apply within_bound_mapM|]. intros rs _.
    apply within_bound_bind; [now apply within_bound_mapM|]. intros os _.
    apply within_bound_bind; [apply within_bound_make_union | discriminate].
  - apply within_bound_bind; [now apply within_bound_map_valuesM | discriminate].
  - apply within_bound_bind; [now apply within_bound_mapM|]. intros ys _.
    apply within_bound_make_union.
Qed.

Lemma shrink_types_within_bound (cap : option Z) (n : nat) :
  forall types, types_size types < n -> within_bound (shrink_types types cap).
Proof.
  induction n as [|n IH]; intros types Hsz; [lia|].
  rewrite shrink_types_unfold.
  destruct types as [|t0 rest]; [discriminate|].
  destruct (forallb is_anonymous_typed_dict (t0 :: rest)) eqn:Hanon.
  - pose proof (merged_fields_size _ Hanon) as Hm. simpl List.length in Hm.
    unfold shrink_typed_dict_types, shrink_typed_dict_types_with.
    destruct cap as [size|]; [|discriminate].
    destruct (_ >? size)%Z.
    + apply within_bound_bind; [|discriminate]. apply IH.
      rewrite List.concat_app, types_size_app, !types_size_concat_values. lia.
    + apply within_bound_bind.
      { apply within_bound_map_valuesM, Forall_forall. intros kv Hkv.
        apply IH. pose proof (groups_size_In _ _ Hkv). lia. }
      intros r _. apply within_bound_bind.
      { apply within_bound_map_valuesM, Forall_forall. intros kv Hkv.
        apply IH. pose proof (groups_size_In _ _ Hkv). lia. }
      intros o _. unfold make_typed_dict. destruct (isdisjoint _ _); discriminate.
  - destruct (forallb _ rest); [discriminate|].
    destruct (forallb is_list (t0 :: rest)).
    + apply within_bound_bind.
      { apply within_bound_mapM, Forall_forall. intros x _. unfold first_arg.
        destruct (get_args x) as [[|a l]|]; discriminate. }
      intros args Ha. apply within_bound_bind; [|discriminate].
      apply IH. apply mapM_first_arg_size in Ha; [lia | congruence].
    + apply within_bound_bind.
      { apply within_bound_mapM, Forall_forall. intros x _.
        apply within_bound_rewrite_anonymous. }
      intros ys _. apply within_bound_make_union.
Qed.

(** The bound [shrink_types] gives to [shrink_types_fuel] is enough: the
    result is never the bound being reached. *)
Lemma shrink_types_terminates (types : list type) (cap : option Z) :
  shrink_types types cap <> Raise RecursionError.
Proof. apply (shrink_types_within_bound cap (S (types_size types))). lia. Qed.

(** ** Record Merge: the grouping of the fields *)

Lemma group_lookup_append_value d k v k' :
  group_lookup (append_value d k v) k'
  = if String.eqb k k' then group_lookup d k' ++ [v] else group_lookup d k'.
Proof.
  unfold group_lookup.
  induction d as [|[k0 vs] d IH]; simpl.
  - destruct (String.eqb k k'); reflexivity.
  - destruct (String.eqb k0 k) eqn:E0; simpl.
    + apply String.eqb_eq in E0. subst k0.
      destruct (String.eqb k k'); reflexivity.
    + destruct (String.eqb k0 k') eqn:E1; simpl; [|exact IH].
      apply String.eqb_eq in E1. subst k0.
      rewrite String.eqb_sym, E0. reflexivity.
Qed.

Lemma lookup_all_cons {V : Type} k (kv : string * V) d :
  lookup_all k (kv :: d)
  = (if String.eqb (fst kv) k then [snd kv] else []) ++ lookup_all k d.
Proof. unfold lookup_all. simpl. now destruct (String.eqb (fst kv) k). Qed.

Lemma group_lookup_append_items (items : fields) :
  forall d k,
    group_lookup (append_items d items) k = group_lookup d k ++ lookup_all k items.
Proof.
  induction items as [|kv items IH]; intros d k; unfold append_items in *; simpl.
  - now rewrite app_nil_r.
  - rewrite IH, group_lookup_append_value, lookup_all_cons.
    destruct (String.eqb (fst kv) k); simpl; [now rewrite <- app_assoc | reflexivity].
Qed.

Lemma group_lookup_key_value_types_dict_from (tds : list type) :
  forall d k,
    group_lookup
      (fold_left (fun d td => append_items d (fst (field_annotations td))) tds d) k
    = group_lookup d k ++ required_values k tds.
Proof.
  induction tds as [|td tds IH]; intros d k; simpl.
  - now rewrite app_nil_r.
  - rewrite IH, group_lookup_append_items. now rewrite <- app_assoc.
Qed.

Lemma group_lookup_key_value_types_dict (tds : list type) (k : string) :
  group_lookup (key_value_types_dict tds) k = required_values k tds.
Proof.
  unfold key_value_types_dict.
  now rewrite group_lookup_key_value_types_dict_from.
Qed.

Lemma has_key_append_value d k v k' :
  has_key k' (append_value d k v) = has_key k' d || String.eqb k k'.
Proof.
  unfold has_key. induction d as [|[k0 vs] d IH]; simpl.
  - now rewrite orb_false_r.
  - destruct (String.eqb k0 k) eqn:E0; simpl.
    + apply String.eqb_eq in E0. subst k0.
      destruct (String.eqb k k'); simpl; [reflexivity | now rewrite orb_false_r].
    + rewrite IH. now rewrite orb_assoc.
Qed.

Lemma groups_ok_append_value d k v :
  groups_ok d -> groups_ok (append_value d k v).
Proof.
  unfold groups_ok. induction d as [|[k0 vs] d IH]; simpl.
  - intros _. split; [reflexivity|]. repeat constructor. simpl. discriminate.
  - intros [Hnd Hne]. apply andb_prop in Hnd as [Hk0 Hnd].
    inversion Hne as [|? ? Hvs Hne']; subst.
    destruct (String.eqb k0 k) eqn:E0; simpl.
    + rewrite Hk0, Hnd. split; [reflexivity|]. constructor; [|assumption].
      simpl. now destruct vs.
    + destruct (IH (conj Hnd Hne')) as [IH1 IH2].
      rewrite has_key_append_value, IH1.
      apply negb_true_iff in Hk0. rewrite Hk0. simpl.
      rewrite String.eqb_sym, E0. split; [reflexivity|]. now constructor.
Qed.

Lemma groups_ok_append_items (items : fields) :
  forall d, groups_ok d -> groups_ok (append_items d items).
Proof.
  induction items as [|kv items IH]; intros d Hd; unfold append_items in *;
    simpl; [assumption|].
  apply IH. now apply groups_ok_append_value.
Qed.

Lemma groups_ok_key_value_types_dict (tds : list type) :
  groups_ok (key_value_types_dict tds).
Proof.
  unfold key_value_types_dict.
  assert (groups_ok []) as H0 by (split; [reflexivity | constructor]).
  revert H0. generalize (@nil (string * list type)).
  induction tds as [|td tds IH]; intros d Hd; simpl; [assumption|].
  apply IH. now apply groups_ok_append_items.
Qed.

Lemma has_key_In {V : Type} k (d : list (string * V)) :
  has_key k d = true <-> In k (keys d).
Proof.
  unfold has_key, keys. rewrite existsb_exists, in_map_iff. split.
  - intros (kv & Hin & He). apply String.eqb_eq in He. now exists kv.
  - intros (kv & He & Hin). exists kv. split; [assumption|].
    now apply String.eqb_eq.
Qed.

Lemma has_key_false {V : Type} k (d : list (string * V)) :
  has_key k d = false <-> ~ In k (keys d).
Proof.
  rewrite <- has_key_In. destruct (has_key k d); split; congruence.
Qed.

Lemma group_lookup_no_key d k :
  ~ In k (keys d) -> group_lookup d k = [].
Proof.
  unfold group_lookup. induction d as [|[k0 vs] d IH]; simpl; [reflexivity|].
  intros H. destruct (String.eqb k0 k) eqn:E.
  - apply String.eqb_eq in E. tauto.
  - apply IH. tauto.
Qed.

Lemma group_lookup_In d k vs :
  nodup_keys d = true -> In (k, vs) d -> group_lookup d k = vs.
Proof.
  unfold group_lookup. induction d as [|[k0 vs0] d IH]; simpl; [tauto|].
  intros Hnd [He|Hin].
  - inversion He; subst. now rewrite String.eqb_refl.
  - apply andb_prop in Hnd as [Hk0 Hnd]. apply negb_true_iff in Hk0.
    destruct (String.eqb k0 k) eqn:E; [|now apply IH].
    apply String.eqb_eq in E. subst k0.
    apply has_key_false in Hk0. exfalso. apply Hk0.
    apply in_map_iff. now exists (k, vs).
Qed.

Lemma group_lookup_key d k :
  groups_ok d -> (In k (keys d) <-> group_lookup d k <> []).
Proof.
  intros [Hnd Hne]. split.
  - intros Hin. apply in_map_iff in Hin as ([k0 vs] & He & Hin). simpl in He.
    subst k0. rewrite (group_lookup_In _ _ _ Hnd Hin).
    rewrite Forall_forall in Hne. exact (Hne _ Hin).
  - intros H. destruct (has_key k d) eqn:E; [now apply has_key_In|].
    apply has_key_false in E. now rewrite group_lookup_no_key in H.
Qed.

Lemma has_key_filter {V : Type} (p : string * V -> bool) k (d : list (string * V)) :
  has_key k (filter p d) = true -> has_key k d = true.
Proof.
  unfold has_key. rewrite !existsb_exists. intros (kv & Hin & He).
  apply filter_In in Hin as [Hin _]. now exists kv.
Qed.

Lemma nodup_keys_filter {V : Type} (p : string * V -> bool) (d : list (string * V)) :
  nodup_keys d = true -> nodup_keys (filter p d) = true.
Proof.
  induction d as [|[k v] d IH]; simpl; [reflexivity|].
  intros H. apply andb_prop in H as [Hk Hnd].
  destruct (p (k, v)); simpl; [|now apply IH].
  rewrite (IH Hnd), andb_true_r. apply negb_true_iff in Hk.
  apply negb_true_iff.
  destruct (has_key k (filter p d)) eqn:E; [|reflexivity].
  apply has_key_filter in E. congruence.
Qed.

Lemma groups_ok_filter p d : groups_ok d -> groups_ok (filter p d).
Proof.
  intros [Hnd Hne]. split; [now apply nodup_keys_filter|].
  rewrite Forall_forall in *. intros kv Hin. apply filter_In in Hin as [Hin _].
  now apply Hne.
Qed.

Lemma group_lookup_filter (p : string * list type -> bool) d k :
  nodup_keys d = true ->
  group_lookup (filter p d) k
  = if has_key k d && p (k, group_lookup d k) then group_lookup d k else [].
Proof.
  intros Hnd. destruct (has_key k d) eqn:Hk; simpl.
  - apply has_key_In in Hk. apply in_map_iff in Hk as ([k0 vs] & He & Hin).
    simpl in He. subst k0. rewrite (group_lookup_In _ _ _ Hnd Hin).
    destruct (p (k, vs)) eqn:Hp.
    + apply group_lookup_In; [now apply nodup_keys_filter|].
      apply filter_In. now split.
    + apply group_lookup_no_key. intros Hin'.
      apply in_map_iff in Hin' as ([k0 vs'] & He & Hin'). simpl in He. subst k0.
      apply filter_In in Hin' as [Hin' Hp'].
      pose proof (group_lookup_In _ _ _ Hnd Hin) as E1.
      pose proof (group_lookup_In _ _ _ Hnd Hin') as E2.
      congruence.
  - apply group_lookup_no_key. intros Hin.
    apply has_key_false in Hk. apply Hk.
    apply in_map_iff in Hin as (kv & He & Hin).
    apply filter_In in Hin as [Hin _]. apply in_map_iff. now exists kv.
Qed.

Lemma lookup_all_app {V : Type} k (d1 d2 : list (string * V)) :
  lookup_all k (d1 ++ d2) = lookup_all k d1 ++ lookup_all k d2.
Proof. unfold lookup_all, values. now rewrite filter_app, map_app. Qed.

Lemma lookup_all_existing_optional k (tds : list type) :
  lookup_all k (existing_optional_fields tds) = optional_values k tds.
Proof.
  unfold existing_optional_fields, optional_values.
  induction tds as [|td tds IH]; simpl; [reflexivity|].
  now rewrite lookup_all_app, IH.
Qed.

(** The lists [shrink_typed_dict_types] collects for a name. *)
Lemma group_lookup_merged_required (tds : list type) (k : string) :
  group_lookup (merged_required_fields tds) k
  = if Nat.eqb (List.length (required_values k tds)) (List.length tds)
       && negb (Nat.eqb (List.length (required_values k tds)) 0)
    then required_values k tds else [].
Proof.
  unfold merged_required_fields.
  destruct (groups_ok_key_value_types_dict tds) as [Hnd Hne].
  rewrite group_lookup_filter by assumption.
  rewrite group_lookup_key_value_types_dict. simpl.
  destruct (has_key k (key_value_types_dict tds)) eqn:Hk.
  - apply has_key_In in Hk.
    apply (group_lookup_key _ k (conj Hnd Hne)) in Hk.
    rewrite group_lookup_key_value_types_dict in Hk.
    destruct (required_values k tds); [congruence|]. simpl.
    now rewrite andb_true_r.
  - apply has_key_false in Hk. apply group_lookup_no_key in Hk.
    rewrite group_lookup_key_value_types_dict in Hk. rewrite Hk. simpl.
    now rewrite andb_false_r.
Qed.

Lemma group_lookup_merged_optional (tds : list type) (k : string) :
  group_lookup (merged_optional_fields tds) k
  = (if Nat.eqb (List.length (required_values k tds)) (List.length tds)
     then [] else required_values k tds) ++ optional_values k tds.
Proof.
  unfold merged_optional_fields.
  destruct (groups_ok_key_value_types_dict tds) as [Hnd Hne].
  rewrite group_lookup_append_items, lookup_all_existing_optional.
  f_equal.
  rewrite group_lookup_filter by assumption.
  rewrite group_lookup_key_value_types_dict. simpl.
  destruct (has_key k (key_value_types_dict tds)) eqn:Hk; simpl.
  - now destruct (Nat.eqb _ _).
  - apply has_key_false in Hk. apply group_lookup_no_key in Hk.
    rewrite group_lookup_key_value_types_dict in Hk. rewrite Hk.
    now destruct (Nat.eqb _ _).
Qed.

Lemma groups_ok_merged_required tds : groups_ok (merged_required_fields tds).
Proof. apply groups_ok_filter, groups_ok_key_value_types_dict. Qed.

Lemma groups_ok_merged_optional tds : groups_ok (merged_optional_fields tds).
Proof.
  apply groups_ok_append_items, groups_ok_filter, groups_ok_key_value_types_dict.
Qed.

Lemma lookup_all_no_key {V : Type} k (d : list (string * V)) :
  ~ In k (keys d) -> lookup_all k d = [].
Proof.
  induction d as [|[k0 v] d IH]; [reflexivity|].
  rewrite lookup_all_cons. simpl. intros H.
  destruct (String.eqb k0 k) eqn:E.
  - apply String.eqb_eq in E. tauto.
  - apply IH. tauto.
Qed.

Lemma lookup_all_key {V : Type} k (d : list (string * V)) :
  nodup_keys d = true -> In k (keys d) ->
  exists v, lookup_all k d = [v] /\ In (k, v) d.
Proof.
  induction d as [|[k0 v] d IH]; simpl; [tauto|].
  intros Hnd Hin. apply andb_prop in Hnd as [Hk0 Hnd].
  apply negb_true_iff, has_key_false in Hk0.
  rewrite lookup_all_cons. simpl.
  destruct (String.eqb k0 k) eqn:E.
  - apply String.eqb_eq in E. subst k0. exists v.
    rewrite (lookup_all_no_key _ _ Hk0). split; [reflexivity | now left].
  - destruct Hin as [He|Hin]; [subst; now rewrite String.eqb_refl in E|].
    destruct (IH Hnd Hin) as (v' & H1 & H2). exists v'. simpl. split; auto.
Qed.

Lemma lookup_all_length {V : Type} k (d : list (string * V)) :
  nodup_keys d = true ->
  List.length (lookup_all k d) = if has_key k d then 1 else 0.
Proof.
  intros Hnd. destruct (has_key k d) eqn:E.
  - apply has_key_In in E. destruct (lookup_all_key _ _ Hnd E) as (v & -> & _).
    reflexivity.
  - apply has_key_false in E. now rewrite lookup_all_no_key.
Qed.

Lemma record_ok_inv td :
  record_ok td = true ->
  exists r o, td = TAnon r o /\ nodup_keys r = true /\ nodup_keys o = true
              /\ isdisjoint (keys r) (keys o) = true.
Proof.
  destruct td; try discriminate. simpl. intros H.
  apply andb_prop in H as [H H3]. apply andb_prop in H as [H1 H2].
  now exists required, optional.
Qed.

Lemma required_values_length_le k (tds : list type) :
  Forall (fun td => record_ok td = true) tds ->
  List.length (required_values k tds) <= List.length tds.
Proof.
  induction 1 as [|td tds Htd _ IH]; simpl; [lia|].
  apply record_ok_inv in Htd as (r & o & -> & Hr & _).
  rewrite length_app. simpl. rewrite (lookup_all_length _ _ Hr).
  destruct (has_key k r); lia.
Qed.

(** A name is counted once per record that requires it. *)
Lemma required_in_every k (tds : list type) :
  Forall (fun td => record_ok td = true) tds ->
  (List.length (required_values k tds) = List.length tds
   <-> Forall (required_in k) tds).
Proof.
  induction 1 as [|td tds Htd Htds IH]; simpl; [split; auto|].
  pose proof (required_values_length_le k tds Htds) as Hle.
  apply record_ok_inv in Htd as (r & o & -> & Hr & _).
  rewrite length_app. simpl. rewrite (lookup_all_length _ _ Hr).
  destruct (has_key k r) eqn:E; split; intros H.
  - constructor; [now apply has_key_In | apply IH; lia].
  - inversion H; subst. apply IH in H3. simpl. lia.
  - lia.
  - inversion H as [|? ? H2 H3]; subst. unfold required_in in H2. simpl in H2.
    apply has_key_In in H2. congruence.
Qed.

Lemma isdisjoint_spec (l1 l2 : list string) :
  isdisjoint l1 l2 = true <-> forall k, In k l1 -> ~ In k l2.
Proof.
  unfold isdisjoint. rewrite forallb_forall. split; intros H k Hk.
  - specialize (H k Hk). apply negb_true_iff in H. intros Hin.
    assert (existsb (String.eqb k) l2 = true); [|congruence].
    apply existsb_exists. exists k. split; [assumption | apply String.eqb_refl].
  - apply negb_true_iff. destruct (existsb (String.eqb k) l2) eqn:E; [|reflexivity].
    apply existsb_exists in E as (k' & Hin & He). apply String.eqb_eq in He.
    subst k'. exfalso. now apply (H k).
Qed.

Lemma optional_values_none k (tds : list type) :
  Forall (fun td => record_ok td = true) tds ->
  Forall (required_in k) tds ->
  optional_values k tds = [].
Proof.
  induction 1 as [|td tds Htd _ IH]; simpl; [reflexivity|].
  intros H. inversion H as [|? ? H2 H3]; subst.
  apply record_ok_inv in Htd as (r & o & -> & _ & _ & Hd).
  unfold optional_values in *. simpl. rewrite (IH H3), app_nil_r.
  apply lookup_all_no_key. rewrite isdisjoint_spec in Hd. now apply Hd.
Qed.

(** The key sets [shrink_typed_dict_types] hands to [make_typed_dict] are
    disjoint. *)
Lemma merged_fields_disjoint (tds : list type) :
  Forall (fun td => record_ok td = true) tds ->
  isdisjoint (keys (merged_required_fields tds))
             (keys (merged_optional_fields tds)) = true.
Proof.
  intros Hok. apply isdisjoint_spec. intros k Hr Ho.
  apply (group_lookup_key _ k (groups_ok_merged_required tds)) in Hr.
  apply (group_lookup_key _ k (groups_ok_merged_optional tds)) in Ho.
  rewrite group_lookup_merged_required in Hr.
  rewrite group_lookup_merged_optional in Ho.
  destruct (Nat.eqb _ (List.length tds)) eqn:E; [|now simpl in Hr].
  apply Nat.eqb_eq in E. apply required_in_every in E; [|assumption].
  rewrite optional_values_none in Ho by assumption. now apply Ho.
Qed.

Lemma keys_map_valuesM {A B : Type} (f : A -> result B) (d : list (string * A)) d' :
  map_valuesM f d = Ok d' -> keys d' = keys d.
Proof.
  revert d'. induction d as [|[k v] d IH]; simpl; intros d' H.
  - now inversion H.
  - destruct (f v); [|discriminate]. simpl in H.
    destruct (map_valuesM f d); [|discriminate]. simpl in H.
    inversion H; subst. simpl. f_equal. now apply IH.
Qed.

(** ** The shrinker returns on well-formed types *)

Lemma flatten_not_union (params : list type) :
  Forall (fun p => flat p = true) params ->
  Forall (fun m => is_union m = false) (flatten params).
Proof.
  induction 1 as [|p params Hp _ IH]; simpl; [constructor|].
  apply Forall_app. split; [|exact IH].
  destruct p; try (repeat constructor).
  simpl in Hp. apply andb_prop in Hp as [_ Hp].
  rewrite forallb_forall in Hp. apply Forall_forall. intros m Hm.
  now apply negb_true_iff, Hp.
Qed.

Lemma flatten_nonempty (p : type) (params : list type) :
  flat p = true -> flatten (p :: params) <> [].
Proof.
  intros Hp. simpl. destruct p; try discriminate.
  simpl in Hp. destruct members; [discriminate|]. discriminate.
Qed.

Lemma deduplicate_incl (l : list type) : incl (deduplicate l) l.
Proof.
  induction l as [|x l IH]; simpl; [apply incl_refl|].
  intros y [->|Hy]; [now left|]. right. apply IH.
  now apply filter_In in Hy as [Hy _].
Qed.

Lemma deduplicate_nonempty (l : list type) : l <> [] -> deduplicate l <> [].
Proof. destruct l; [congruence | discriminate]. Qed.

Lemma make_union_flat (params : list type) :
  params <> [] ->
  Forall (fun p => flat p = true) params ->
  exists t, make_union params = Ok t /\ flat t = true.
Proof.
  intros Hne Hflat. unfold make_union.
  destruct params as [|p params]; [congruence|].
  pose proof (flatten_nonempty p params (Forall_inv Hflat)) as Hf.
  apply deduplicate_nonempty in Hf.
  pose proof (flatten_not_union _ Hflat) as Hnu.
  assert (Forall (fun m => is_union m = false) (deduplicate (flatten (p :: params))))
    as Hd.
  { rewrite Forall_forall in *. intros m Hm. apply Hnu.
    now apply deduplicate_incl. }
  destruct (deduplicate (flatten (p :: params))) as [|t [|t' ms]];
    [congruence| |].
  - exists t. split; [reflexivity|]. inversion Hd; subst. now destruct t.
  - eexists. split; [reflexivity|]. simpl.
    rewrite Forall_forall in Hd. 
    rewrite (Hd t (or_introl eq_refl)), (Hd t' (or_intror (or_introl eq_refl))).
    simpl. apply forallb_forall. intros m Hm. apply negb_true_iff, Hd.
    now right; right.
Qed.

Lemma mapM_total {A B : Type} (f : A -> result B) (P : B -> Prop) (l : list A) :
  Forall (fun x => exists y, f x = Ok y /\ P y) l ->
  exists ys, mapM f l = Ok ys /\ Forall P ys /\ List.length ys = List.length l.
Proof.
  induction 1 as [|x l (y & Hy & HP) _ (ys & Hys & HPs & Hlen)]; simpl.
  - exists []. repeat split. constructor.
  - exists (y :: ys). rewrite Hy, Hys. simpl. repeat split; auto.
Qed.

Lemma map_valuesM_total {A B : Type} (f : A -> result B) (d : list (string * A)) :
  Forall (fun kv => exists y, f (snd kv) = Ok y) d ->
  exists d', map_valuesM f d = Ok d'.
Proof.
  induction 1 as [|[k v] d (y & Hy) _ (d' & Hd')]; simpl.
  - now exists [].
  - simpl in Hy. rewrite Hy, Hd'. simpl. now eexists.
Qed.

Lemma well_formed_args g args :
  well_formed (TContainer g args) = true ->
  Forall (fun a => well_formed a = true) args.
Proof.
  simpl. intros H. apply andb_prop in H as [H _].
  apply Forall_forall. now apply forallb_forall.
Qed.

Lemma well_formed_fields r o :
  well_formed (TAnon r o) = true ->
  fields_all (fun t => well_formed t = true) r
  /\ fields_all (fun t => well_formed t = true) o
  /\ record_ok (TAnon r o) = true.
Proof.
  simpl. intros H. apply andb_prop in H as [H Ho]. apply andb_prop in H as [H Hr].
  unfold fields_all. rewrite !Forall_forall. rewrite forallb_forall in Hr, Ho.
  auto.
Qed.

Lemma rewrite_anonymous_total (t : type) :
  well_formed t = true ->
  exists t', rewrite RewriteAnonymousTypedDictToDict t = Ok t' /\ flat t' = true.
Proof.
  induction t using type_ind'; intros Hwf;
    try (eexists; split; [reflexivity | reflexivity]).
  - (* containers *)
    cbn [rewrite]. destruct (container_class g) as [cls|];
      [|eexists; split; reflexivity].
    destruct (negb (String.eqb (module_ g) "typing"));
      [destruct g; eexists; split; reflexivity|].
    apply well_formed_args in Hwf.
    assert (exists ys, mapM (rewrite RewriteAnonymousTypedDictToDict) args = Ok ys)
      as (ys & Hys).
    { destruct (mapM_total (rewrite RewriteAnonymousTypedDictToDict)
                  (fun t => flat t = true) args) as (ys & Hys & _).
      - rewrite Forall_forall in *. intros x Hx. apply H; auto.
      - now exists ys. }
    destruct g; rewrite ?Hys; eexists; split; reflexivity.
  - (* anonymous records *)
    cbn [rewrite].
    destruct (values r ++ values o) as [|v vs] eqn:Ev;
      [eexists; split; reflexivity|].
    apply well_formed_fields in Hwf as (Hr & Ho & _).
    destruct (mapM_total (fun kv => rewrite RewriteAnonymousTypedDictToDict (snd kv))
                (fun t => flat t = true) r) as (rs & Hrs & Hfr & Hlr).
    { unfold fields_all in Hr. rewrite Forall_forall in *. intros x Hx.
      apply H; auto. }
    destruct (mapM_total (fun kv => rewrite RewriteAnonymousTypedDictToDict (snd kv))
                (fun t => flat t = true) o) as (os & Hos & Hfo & Hlo).
    { unfold fields_all in Ho. rewrite Forall_forall in *. intros x Hx.
      apply H0; auto. }
    rewrite Hrs, Hos. cbn [bind].
    destruct (make_union_flat (rs ++ os)) as (u & Hu & _).
    + assert (List.length (values r ++ values o) = List.length (rs ++ os)) as Hl
        by (unfold values; rewrite !length_app, !length_map; lia).
      rewrite Ev in Hl. destruct (rs ++ os); [discriminate | congruence].
    + apply Forall_app. now split.
    + rewrite Hu. eexists. split; reflexivity.
  - (* named TypedDicts *)
    cbn [rewrite]. simpl in Hwf. apply andb_prop in Hwf as [_ Hwf].
    rewrite forallb_forall in Hwf.
    destruct (map_valuesM_total (rewrite RewriteAnonymousTypedDictToDict) a)
      as (a' & Ha').
    { rewrite Forall_forall in *. intros kv Hkv.
      destruct (H kv Hkv (Hwf kv Hkv)) as (y & Hy & _). now exists y. }
    rewrite Ha'. eexists. split; reflexivity.
  - (* unions *)
    cbn [rewrite]. simpl in Hwf. apply andb_prop in Hwf as [Hwf Hne].
    rewrite forallb_forall in Hwf.
    destruct (mapM_total (rewrite RewriteAnonymousTypedDictToDict)
                (fun t => flat t = true) ms) as (ys & Hys & Hf & Hl).
    { rewrite Forall_forall in *. intros x Hx. apply H; auto. }
    rewrite Hys. cbn [bind]. apply make_union_flat; [|assumption].
    destruct ms; [discriminate|]. destruct ys; [discriminate | congruence].
Qed.

Lemma groups_all_append_value (P : type -> Prop) d k v :
  groups_all P d -> P v -> groups_all P (append_value d k v).
Proof.
  unfold groups_all. induction d as [|[k0 vs] d IH]; simpl; intros Hd Hv.
  - repeat constructor. assumption.
  - inversion Hd as [|? ? Hvs Hd']; subst. simpl in Hvs.
    destruct (String.eqb k0 k); constructor; simpl; auto.
    apply Forall_app. split; [assumption | now constructor].
Qed.

Lemma groups_all_append_items (P : type -> Prop) (items : fields) :
  forall d, groups_all P d -> fields_all P items ->
            groups_all P (append_items d items).
Proof.
  induction items as [|kv items IH]; intros d Hd Hi; unfold append_items in *;
    simpl; [assumption|].
  inversion Hi; subst. apply IH; [|assumption].
  now apply groups_all_append_value.
Qed.

Lemma groups_all_filter (P : type -> Prop) p d :
  groups_all P d -> groups_all P (filter p d).
Proof.
  unfold groups_all. rewrite !Forall_forall. intros H kv Hkv.
  apply filter_In in Hkv as [Hkv _]. now apply H.
Qed.

Lemma groups_all_key_value_types_dict (P : type -> Prop) (tds : list type) :
  Forall (fun td => fields_all P (fst (field_annotations td))) tds ->
  groups_all P (key_value_types_dict tds).
Proof.
  unfold key_value_types_dict.
  assert (groups_all P []) as H0 by constructor.
  revert H0. generalize (@nil (string * list type)).
  induction tds as [|td tds IH]; intros d Hd Htds; simpl; [assumption|].
  inversion Htds; subst. apply IH; [|assumption].
  now apply groups_all_append_items.
Qed.

Lemma fields_all_existing_optional (P : type -> Prop) (tds : list type) :
  Forall (fun td => fields_all P (snd (field_annotations td))) tds ->
  fields_all P (existing_optional_fields tds).
Proof.
  unfold existing_optional_fields, fields_all.
  induction 1 as [|td tds Htd _ IH]; simpl; [constructor|].
  apply Forall_app. now split.
Qed.

Lemma groups_all_merged (P : type -> Prop) (tds : list type) :
  Forall (fun td => fields_all P (fst (field_annotations td))) tds ->
  Forall (fun td => fields_all P (snd (field_annotations td))) tds ->
  groups_all P (merged_required_fields tds)
  /\ groups_all P (merged_optional_fields tds).
Proof.
  intros Hr Ho. split.
  - now apply groups_all_filter, groups_all_key_value_types_dict.
  - apply groups_all_append_items.
    + now apply groups_all_filter, groups_all_key_value_types_dict.
    + now apply fields_all_existing_optional.
Qed.

Lemma groups_all_concat (P : type -> Prop) d :
  groups_all P d -> Forall P (List.concat (values d)).
Proof.
  unfold groups_all. induction 1 as [|kv d Hkv _ IH]; simpl; [constructor|].
  apply Forall_app. now split.
Qed.

Lemma anonymous_well_formed (tds : list type) :
  forallb is_anonymous_typed_dict tds = true ->
  Forall (fun t => well_formed t = true) tds ->
  Forall (fun td => fields_all (fun t => well_formed t = true)
                               (fst (field_annotations td))) tds
  /\ Forall (fun td => fields_all (fun t => well_formed t = true)
                                  (snd (field_annotations td))) tds
  /\ Forall (fun td => record_ok td = true) tds.
Proof.
  intros Ha Hwf. rewrite forallb_forall in Ha. rewrite !Forall_forall in *.
  repeat split; intros td Htd; specialize (Ha td Htd); specialize (Hwf td Htd);
    destruct td; try discriminate;
    now apply well_formed_fields in Hwf as (Hr & Ho & Hok).
Qed.

Lemma first_arg_list (t : type) :
  is_list t = true -> well_formed t = true ->
  exists a, first_arg t = Ok a /\ well_formed a = true.
Proof.
  destruct t; try discriminate. simpl. intros Hl Hwf.
  apply andb_prop in Hwf as [Hargs Hne]. rewrite Hl in Hne. simpl in Hne.
  destruct args as [|a args]; [discriminate|]. exists a.
  simpl in Hargs. apply andb_prop in Hargs as [Ha _]. now split.
Qed.

Lemma make_typed_dict_ok (r o : fields) :
  isdisjoint (keys r) (keys o) = true -> make_typed_dict r o = Ok (TAnon r o).
Proof. unfold make_typed_dict. now intros ->. Qed.

(** On well-formed types and under a cap, [shrink_types] returns. *)
Lemma shrink_types_total (size : Z) (n : nat) :
  forall types,
    types_size types < n ->
    Forall (fun t => well_formed t = true) types ->
    exists t, shrink_types types (Some size) = Ok t.
Proof.
  induction n as [|n IH]; intros types Hsz Hwf; [lia|].
  rewrite shrink_types_unfold.
  destruct types as [|t0 rest]; [now eexists|].
  destruct (forallb is_anonymous_typed_dict (t0 :: rest)) eqn:Hanon.
  - (* Record Merge *)
    pose proof (merged_fields_size _ Hanon) as Hm. simpl List.length in Hm.
    destruct (anonymous_well_formed _ Hanon Hwf) as (Hr & Ho & Hok).
    destruct (groups_all_merged _ _ Hr Ho) as (Gr & Go).
    unfold shrink_typed_dict_types, shrink_typed_dict_types_with.
    destruct (_ >? size)%Z.
    + destruct (IH (List.concat (values (merged_required_fields (t0 :: rest))
                                 ++ values (merged_optional_fields (t0 :: rest)))))
        as (v & Hv).
      * rewrite List.concat_app, types_size_app, !types_size_concat_values. lia.
      * rewrite List.concat_app. apply Forall_app.
        split; now apply groups_all_concat.
      * rewrite Hv. now eexists.
    + destruct (map_valuesM_total (fun ts => shrink_types ts (Some size))
                  (merged_required_fields (t0 :: rest))) as (r' & Hr').
      { unfold groups_all in Gr. rewrite Forall_forall in *. intros kv Hkv.
        apply IH; [|now apply Gr].
        pose proof (groups_size_In _ _ Hkv). lia. }
      destruct (map_valuesM_total (fun ts => shrink_types ts (Some size))
                  (merged_optional_fields (t0 :: rest))) as (o' & Ho').
      { unfold groups_all in Go. rewrite Forall_forall in *. intros kv Hkv.
        apply IH; [|now apply Go].
        pose proof (groups_size_In _ _ Hkv). lia. }
      rewrite Hr', Ho'. cbn [bind]. rewrite make_typed_dict_ok; [now eexists|].
      rewrite (keys_map_valuesM _ _ _ Hr'), (keys_map_valuesM _ _ _ Ho').
      now apply merged_fields_disjoint.
  - destruct (forallb _ rest); [now eexists|].
    destruct (forallb is_list (t0 :: rest)) eqn:Hlist.
    + destruct (mapM_total first_arg (fun a => well_formed a = true) (t0 :: rest))
        as (args & Hargs & Hwa & _).
      { rewrite forallb_forall in Hlist. rewrite Forall_forall in *.
        intros t Ht. apply first_arg_list; auto. }
      rewrite Hargs. cbn [bind].
      destruct (IH args) as (a & Ha); [|assumption|].
      * apply mapM_first_arg_size in Hargs; [lia | congruence].
      * rewrite Ha. now eexists.
    + destruct (mapM_total (rewrite RewriteAnonymousTypedDictToDict)
                  (fun t => flat t = true) (t0 :: rest)) as (ys & Hys & Hf & Hl).
      { rewrite Forall_forall in *. intros t Ht.
        now apply rewrite_anonymous_total, Hwf. }
      rewrite Hys. cbn [bind].
      destruct (make_union_flat ys) as (u & Hu & _); [|assumption|now exists u].
      destruct ys; [discriminate | congruence].
Qed.

Lemma shrink_types_returns (types : list type) (size : Z) :
  Forall (fun t => well_formed t = true) types ->
  exists t, shrink_types types (Some size) = Ok t.
Proof.
  intros H. apply (shrink_types_total size (S (types_size types))); [lia | exact H].
Qed.

(** ** Record Merge *)



(** C10: when the required and the optional keys of every input record are
    disjoint, so are the key sets Record Merge hands to the record
    constructor, whatever the shrunk field types are: its assertion holds;
    and on records that are well formed throughout, Record Merge does not
    end in an AssertionError. *)
Theorem C10_merge_keeps_keys_disjoint (records : list type) :
  records <> [] ->
  Forall (fun td => record_ok td = true) records ->
  isdisjoint (keys (merged_required_fields records))
             (keys (merged_optional_fields records)) = true
  /\ (forall (shrink : list type -> result type) r o,
        map_valuesM shrink (merged_required_fields records) = Ok r ->
        map_valuesM shrink (merged_optional_fields records) = Ok o ->
        isdisjoint (keys r) (keys o) = true
        /\ make_typed_dict r o = Ok (TAnon r o))
  /\ (Forall (fun t => well_formed t = true) records ->
      forall cap, shrink_typed_dict_types records cap <> Raise AssertionError).
Proof.
  intros Hne Hok. pose proof (merged_fields_disjoint records Hok) as Hd.
  split; [exact Hd|]. split.
  - intros shrink r o Hr Ho.
    assert (isdisjoint (keys r) (keys o) = true) as Hd'
      by now rewrite (keys_map_valuesM _ _ _ Hr), (keys_map_valuesM _ _ _ Ho).
    split; [exact Hd' | now apply make_typed_dict_ok].
  - intros Hwf [size|]; [|discriminate].
    assert (forallb is_anonymous_typed_dict records = true) as Hanon.
    { apply forallb_forall. rewrite Forall_forall in Hok. intros td Htd.
      specialize (Hok td Htd). now destruct td. }
    destruct (shrink_types_returns records size Hwf) as (t & Ht).
    rewrite shrink_types_unfold in Ht. destruct records; [congruence|].
    rewrite Hanon in Ht. rewrite Ht. discriminate.
Qed.

Lemma C10_merge_keeps_keys_disjoint_witness :
  isdisjoint (keys (merged_required_fields [record_a; record_ab]))
             (keys (merged_optional_fields [record_a; record_ab])) = true
  /\ shrink_typed_dict_types [record_a; record_ab] (Some 10%Z)
     <> Raise AssertionError.
Proof.
  destruct (C10_merge_keeps_keys_disjoint [record_a; record_ab])
    as (H1 & _ & H3).
  - discriminate.
  - repeat constructor.
  - split; [exact H1 | apply H3; repeat constructor].
Defined.

Lemma map_valuesM_In {A B : Type} (f : A -> result B) (d : list (string * A)) d' k v :
  map_valuesM f d = Ok d' -> In (k, v) d' ->
  exists x, In (k, x) d /\ f x = Ok v.
Proof.
  revert d'. induction d as [|[k0 x0] d IH]; simpl; intros d' H Hin.
  - inversion H; subst. destruct Hin.
  - destruct (f x0) as [y|] eqn:Ey; [|discriminate]. simpl in H.
    destruct (map_valuesM f d) as [ys|]; [|discriminate]. simpl in H.
    inversion H; subst. destruct Hin as [He|Hin].
    + inversion He; subst. exists x0. split; [now left | assumption].
    + destruct (IH ys eq_refl Hin) as (x & Hx & Hfx). exists x. split; auto.
Qed.





Lemma Forall_Exists_nonempty {A : Type} (P : A -> Prop) (l : list A) :
  l <> [] -> Forall P l -> Exists P l.
Proof. destruct l; [congruence|]. intros _ H. inversion H; subst. now left. Qed.





(** ** Shrinking one type *)

Lemma append_value_fresh d k v :
  has_key k d = false -> append_value d k v = d ++ [(k, [v])].
Proof.
  induction d as [|[k0 vs] d IH]; simpl; [reflexivity|].
  intros H. apply orb_false_elim in H as [H1 H2]. rewrite H1.
  now rewrite IH.
Qed.

Lemma has_key_app {V : Type} k (d1 d2 : list (string * V)) :
  has_key k (d1 ++ d2) = has_key k d1 || has_key k d2.
Proof. unfold has_key. apply existsb_app. Qed.

Lemma append_items_fresh (items : fields) :
  forall d,
    nodup_keys items = true ->
    (forall k, In k (keys items) -> has_key k d = false) ->
    append_items d items = d ++ map single items.
Proof.
  induction items as [|[k v] items IH]; intros d Hnd Hfresh;
    unfold append_items in *; simpl.
  - now rewrite app_nil_r.
  - simpl in Hnd. apply andb_prop in Hnd as [Hk Hnd].
    apply negb_true_iff in Hk.
    rewrite append_value_fresh by (apply Hfresh; now left).
    rewrite IH; [now rewrite <- app_assoc | assumption |].
    intros k' Hk'. rewrite has_key_app, (Hfresh k' (or_intror Hk')). simpl.
    rewrite orb_false_r.
    destruct (String.eqb k k') eqn:E; [|reflexivity].
    apply String.eqb_eq in E. subst k'.
    apply has_key_false in Hk. tauto.
Qed.

Lemma filter_single_all (items : fields) :
  filter (fun kv => Nat.eqb (List.length (snd kv)) 1) (map single items)
  = map single items.
Proof. induction items as [|kv items IH]; simpl; [reflexivity | now rewrite IH]. Qed.

Lemma filter_single_none (items : fields) :
  filter (fun kv => negb (Nat.eqb (List.length (snd kv)) 1)) (map single items)
  = [].
Proof. induction items as [|kv items IH]; simpl; [reflexivity | exact IH]. Qed.

Lemma merged_fields_single (r o : fields) :
  nodup_keys r = true -> nodup_keys o = true ->
  merged_required_fields [TAnon r o] = map single r
  /\ merged_optional_fields [TAnon r o] = map single o.
Proof.
  intros Hr Ho.
  unfold merged_required_fields, merged_optional_fields, key_value_types_dict,
    existing_optional_fields.
  simpl. rewrite app_nil_r.
  rewrite (append_items_fresh r []) by auto. simpl.
  rewrite filter_single_all, filter_single_none.
  split; [reflexivity|]. now rewrite (append_items_fresh o []) by auto.
Qed.

Lemma map_valuesM_single (f : list type -> result type) (items : fields) :
  Forall (fun kv => f [snd kv] = Ok (snd kv)) items ->
  map_valuesM f (map single items) = Ok items.
Proof.
  induction 1 as [|[k v] items Hkv _ IH]; simpl; [reflexivity|].
  simpl in Hkv. now rewrite Hkv, IH.
Qed.

Lemma shrink_types_one_not_record (t : type) (cap : option Z) :
  is_anonymous_typed_dict t = false -> shrink_types [t] cap = Ok t.
Proof.
  intros H. rewrite shrink_types_unfold. simpl. now rewrite H.
Qed.

(** C2, the claim as stated fails: one record of one field under cap 0 is
    shrunk to a Dict. *)
Lemma C2_counterexample_record_over_cap :
  shrink_types [record_a] (Some 0%Z) = Ok (TContainer builtins_dict [tstr; tint])
  /\ shrink_types [record_a] (Some 0%Z) <> Ok record_a.
Proof. split; [reflexivity | discriminate]. Qed.

(** C2 (amended): shrink of the one-element sequence [T] returns T for
    every T that is no anonymous record, under every cap, and for every
    anonymous record whose field count, and that of the anonymous records
    that are the types of its fields, is within the cap. *)
Theorem C2_shrink_identity (t : type) (cap : option Z) :
  fits cap t = true -> shrink_types [t] cap = Ok t.
Proof.
  induction t using type_ind'; intros Hfit;
    try (now apply shrink_types_one_not_record).
  destruct cap as [size|]; [|discriminate]. simpl in Hfit.
  apply andb_prop in Hfit as [Hfit Hfo]. apply andb_prop in Hfit as [Hfit Hfr].
  apply andb_prop in Hfit as [Hfit Hsz]. apply andb_prop in Hfit as [Hfit Hd].
  apply andb_prop in Hfit as [Hr Ho].
  rewrite forallb_forall in Hfr, Hfo.
  rewrite shrink_types_unfold. cbn [forallb is_anonymous_typed_dict andb].
  unfold shrink_typed_dict_types, shrink_typed_dict_types_with.
  destruct (merged_fields_single r o Hr Ho) as [-> ->].
  rewrite !length_map.
  assert ((Z.of_nat (List.length r + List.length o) >? size)%Z = false) as ->
    by (rewrite Z.gtb_ltb; apply Z.ltb_ge; now apply Z.leb_le).
  rewrite (map_valuesM_single _ r), (map_valuesM_single _ o).
  - cbn [bind]. now apply make_typed_dict_ok.
  - rewrite Forall_forall in *. intros kv Hkv. apply H0; auto.
  - rewrite Forall_forall in *. intros kv Hkv. apply H; auto.
Qed.

Lemma C2_shrink_identity_witness :
  shrink_types [record_ab] (Some 2%Z) = Ok record_ab.
Proof. apply C2_shrink_identity. reflexivity. Defined.

(** ** [==] on types is an equivalence *)

Lemma set_eqb_spec {A : Type} (eq : A -> A -> bool) (l1 l2 : list A) :
  set_eqb eq l1 l2 = true
  <-> (forall x, In x l1 -> exists y, In y l2 /\ eq x y = true)
      /\ (forall y, In y l2 -> exists x, In x l1 /\ eq x y = true).
Proof.
  unfold set_eqb. rewrite andb_true_iff, !forallb_forall.
  split; intros [H1 H2]; split; intros x Hx.
  - apply H1, existsb_exists in Hx. exact Hx.
  - apply H2, existsb_exists in Hx. exact Hx.
  - apply existsb_exists. now apply H1.
  - apply existsb_exists. now apply H2.
Qed.

Lemma set_eqb_sym {A : Type} (eq : A -> A -> bool) (l1 l2 : list A) :
  (forall x, In x l1 -> forall y, eq x y = true -> eq y x = true) ->
  set_eqb eq l1 l2 = true -> set_eqb eq l2 l1 = true.
Proof.
  intros Hsym H. apply set_eqb_spec in H as [H1 H2]. apply set_eqb_spec. split.
  - intros y Hy. destruct (H2 y Hy) as (x & Hx & E). exists x. split; auto.
  - intros x Hx. destruct (H1 x Hx) as (y & Hy & E). exists y. split; auto.
Qed.

Lemma set_eqb_trans {A : Type} (eq : A -> A -> bool) (l1 l2 l3 : list A) :
  (forall x, In x l1 ->
             forall y z, eq x y = true -> eq y z = true -> eq x z = true) ->
  set_eqb eq l1 l2 = true -> set_eqb eq l2 l3 = true ->
  set_eqb eq l1 l3 = true.
Proof.
  intros Ht H12 H23. apply set_eqb_spec in H12 as [A1 A2].
  apply set_eqb_spec in H23 as [B1 B2]. apply set_eqb_spec. split.
  - intros x Hx. destruct (A1 x Hx) as (y & Hy & E1).
    destruct (B1 y Hy) as (z & Hz & E2). exists z. split; [assumption|].
    now apply (Ht x Hx y z).
  - intros z Hz. destruct (B2 z Hz) as (y & Hy & E2).
    destruct (A2 y Hy) as (x & Hx & E1). exists x. split; [assumption|].
    now apply (Ht x Hx y z).
Qed.

Lemma tuple_eqb_sym {A : Type} (eq : A -> A -> bool) (l1 : list A) :
  Forall (fun x => forall y, eq x y = true -> eq y x = true) l1 ->
  forall l2, tuple_eqb eq l1 l2 = true -> tuple_eqb eq l2 l1 = true.
Proof.
  induction 1 as [|x l Hx _ IH]; intros [|y l2]; simpl; try discriminate;
    [reflexivity|].
  intros H. apply andb_prop in H as [H1 H2]. now rewrite (Hx y H1), (IH l2 H2).
Qed.

Lemma tuple_eqb_trans {A : Type} (eq : A -> A -> bool) (l1 : list A) :
  Forall (fun x => forall y z, eq x y = true -> eq y z = true -> eq x z = true)
         l1 ->
  forall l2 l3, tuple_eqb eq l1 l2 = true -> tuple_eqb eq l2 l3 = true ->
                tuple_eqb eq l1 l3 = true.
Proof.
  induction 1 as [|x l Hx _ IH]; intros [|y l2] [|z l3]; simpl;
    try discriminate; [reflexivity|].
  intros H H'. apply andb_prop in H as [H1 H2]. apply andb_prop in H' as [H3 H4].
  now rewrite (Hx y z H1 H3), (IH l2 l3 H2 H4).
Qed.

Lemma generic_eqb_eq (a b : generic) : generic_eqb a b = true -> a = b.
Proof. destruct a, b; simpl; congruence. Qed.

Lemma item_eqb_sym (d : fields) :
  Forall (fun kv => forall y, type_eqb (snd kv) y = true ->
                              type_eqb y (snd kv) = true) d ->
  forall x, In x d ->
            forall y, item_eqb type_eqb x y = true -> item_eqb type_eqb y x = true.
Proof.
  intros H x Hx y. rewrite Forall_forall in H. unfold item_eqb.
  intros E. apply andb_prop in E as [E1 E2].
  rewrite String.eqb_sym, E1. simpl. now apply (H x Hx).
Qed.

Lemma item_eqb_trans (d : fields) :
  Forall (fun kv => forall y z, type_eqb (snd kv) y = true ->
                                type_eqb y z = true ->
                                type_eqb (snd kv) z = true) d ->
  forall x, In x d ->
            forall y z, item_eqb type_eqb x y = true ->
                        item_eqb type_eqb y z = true ->
                        item_eqb type_eqb x z = true.
Proof.
  intros H x Hx y z. rewrite Forall_forall in H. unfold item_eqb.
  intros E E'. apply andb_prop in E as [E1 E2]. apply andb_prop in E' as [E3 E4].
  apply String.eqb_eq in E1, E3. rewrite E1, E3, String.eqb_refl. simpl.
  now apply (H x Hx (snd y)).
Qed.

Lemma type_eqb_sym (a : type) : forall b, type_eqb a b = true -> type_eqb b a = true.
Proof.
  induction a using type_ind'; intros b E; destruct b; simpl in *;
    try discriminate; try reflexivity.
  - apply klass_eqb_eq in E. subst. apply klass_eqb_refl.
  - apply klass_eqb_eq in E. subst. apply klass_eqb_refl.
  - apply andb_prop in E as [E1 E2]. apply generic_eqb_eq in E1. subst.
    rewrite generic_eqb_refl. simpl. now apply tuple_eqb_sym.
  - apply andb_prop in E as [E1 E2]. unfold dict_eqb in *.
    rewrite (set_eqb_sym _ _ _ (item_eqb_sym r H) E1).
    now rewrite (set_eqb_sym _ _ _ (item_eqb_sym o H0) E2).
  - apply andb_prop in E as [E E3]. apply andb_prop in E as [E1 E2].
    apply String.eqb_eq in E1. apply Bool.eqb_prop in E2. subst.
    rewrite String.eqb_refl, Bool.eqb_reflx. simpl. unfold dict_eqb in *.
    now apply (set_eqb_sym _ _ _ (item_eqb_sym a H)).
  - apply set_eqb_sym; [|assumption]. rewrite Forall_forall in H. exact H.
  - now rewrite String.eqb_sym.
Qed.

Lemma type_eqb_trans (a : type) :
  forall t2 t3,
    type_eqb a t2 = true -> type_eqb t2 t3 = true -> type_eqb a t3 = true.
Proof.
  induction a using type_ind'; intros t2 t3 E E'; destruct t2; simpl in *;
    try discriminate; destruct t3; simpl in *; try discriminate;
    try reflexivity.
  - apply klass_eqb_eq in E. now subst.
  - apply klass_eqb_eq in E. now subst.
  - apply andb_prop in E as [E1 E2]. apply andb_prop in E' as [E3 E4].
    apply generic_eqb_eq in E1. subst. rewrite E3. simpl.
    now apply (tuple_eqb_trans _ _ H args0).
  - apply andb_prop in E as [E1 E2]. apply andb_prop in E' as [E3 E4].
    unfold dict_eqb in *.
    rewrite (set_eqb_trans _ _ _ _ (item_eqb_trans r H) E1 E3).
    now rewrite (set_eqb_trans _ _ _ _ (item_eqb_trans o H0) E2 E4).
  - apply andb_prop in E as [E E3]. apply andb_prop in E as [E1 E2].
    apply andb_prop in E' as [E' E6]. apply andb_prop in E' as [E4 E5].
    apply String.eqb_eq in E1. apply Bool.eqb_prop in E2. subst.
    rewrite E4, E5. simpl. unfold dict_eqb in *.
    now apply (set_eqb_trans _ _ _ _ (item_eqb_trans a H) E3).
  - apply (set_eqb_trans _ _ members); [|assumption|assumption].
    rewrite Forall_forall in H. exact H.
  - apply String.eqb_eq in E. now subst.
Qed.

Lemma eqv_refl a : eqv a a.
Proof. apply type_eqb_refl. Qed.

Lemma eqv_sym a b : eqv a b -> eqv b a.
Proof. apply type_eqb_sym. Qed.

Lemma eqv_trans a b c : eqv a b -> eqv b c -> eqv a c.
Proof. apply type_eqb_trans. Qed.

(** ** Unions of permuted members *)

Lemma Forall2_eqv_refl (l : list type) : Forall2 eqv l l.
Proof. induction l; constructor; [apply eqv_refl | assumption]. Qed.

Lemma Forall2_eqv_trans (l1 l2 l3 : list type) :
  Forall2 eqv l1 l2 -> Forall2 eqv l2 l3 -> Forall2 eqv l1 l3.
Proof.
  intros H. revert l3. induction H as [|x y l1 l2 Hxy _ IH]; intros l3 H';
    inversion H'; subst; constructor.
  - now apply (eqv_trans x y).
  - now apply IH.
Qed.

Lemma perm_eqv_of_perm (l l' : list type) : Permutation l l' -> perm_eqv l l'.
Proof. intros H. exists l'. split; [assumption | apply Forall2_eqv_refl]. Qed.

Lemma perm_eqv_trans (l1 l2 l3 : list type) :
  perm_eqv l1 l2 -> perm_eqv l2 l3 -> perm_eqv l1 l3.
Proof.
  intros (m & Pm & Fm) (m' & Pm' & Fm').
  destruct (Permutation_Forall2 Pm' (Forall2_flip Fm)) as (m2 & P2 & F2).
  exists m2. split.
  - now apply (Permutation_trans Pm).
  - apply Forall2_eqv_trans with (l2 := m'); [|assumption].
    now apply Forall2_flip in F2.
Qed.

Lemma perm_eqv_length (l l' : list type) :
  perm_eqv l l' -> List.length l = List.length l'.
Proof.
  intros (m & P & F). rewrite (Permutation_length P).
  now apply Forall2_length in F.
Qed.

Lemma perm_eqv_cons (x y : type) (l l' : list type) :
  eqv x y -> perm_eqv l l' -> perm_eqv (x :: l) (y :: l').
Proof.
  intros E (m & P & F). exists (x :: m). split; [now constructor | now constructor].
Qed.

Lemma Permutation_filter {A : Type} (p : A -> bool) (l l' : list A) :
  Permutation l l' -> Permutation (filter p l) (filter p l').
Proof.
  induction 1 as [| x l l' _ IH | x y l | l l' l'' _ IH1 _ IH2]; simpl.
  - constructor.
  - destruct (p x); [now constructor | assumption].
  - destruct (p x), (p y); try apply Permutation_refl. constructor.
  - now apply (Permutation_trans IH1).
Qed.

Lemma Forall2_eqv_filter (p : type -> bool) (l l' : list type) :
  (forall a b, eqv a b -> p a = p b) ->
  Forall2 eqv l l' -> Forall2 eqv (filter p l) (filter p l').
Proof.
  intros Hp. induction 1 as [|x y l l' Hxy _ IH]; simpl; [constructor|].
  rewrite (Hp x y Hxy). destruct (p y); [now constructor | assumption].
Qed.

Lemma perm_eqv_filter (p : type -> bool) (l l' : list type) :
  (forall a b, eqv a b -> p a = p b) ->
  perm_eqv l l' -> perm_eqv (filter p l) (filter p l').
Proof.
  intros Hp (m & P & F). exists (filter p m). split.
  - now apply Permutation_filter.
  - now apply Forall2_eqv_filter.
Qed.

Lemma type_eqb_compat (x a b : type) : eqv a b -> type_eqb x a = type_eqb x b.
Proof.
  intros E. destruct (type_eqb x a) eqn:Ea, (type_eqb x b) eqn:Eb; try reflexivity.
  - rewrite (type_eqb_trans x a b Ea E) in Eb. discriminate.
  - apply eqv_sym in E. rewrite (type_eqb_trans x b a Eb E) in Ea. discriminate.
Qed.

Lemma type_eqb_compat_l (a b x : type) : eqv a b -> type_eqb a x = type_eqb b x.
Proof.
  intros E. destruct (type_eqb a x) eqn:Ea, (type_eqb b x) eqn:Eb; try reflexivity.
  - apply eqv_sym in E. rewrite (type_eqb_trans b a x E Ea) in Eb. discriminate.
  - rewrite (type_eqb_trans a b x E Eb) in Ea. discriminate.
Qed.

Lemma filter_filter_comm {A : Type} (p q : A -> bool) (l : list A) :
  filter p (filter q l) = filter q (filter p l).
Proof.
  induction l as [|x l IH]; simpl; [reflexivity|].
  destruct (p x) eqn:Ep, (q x) eqn:Eq; simpl; rewrite ?Ep, ?Eq, IH; reflexivity.
Qed.

Lemma deduplicate_perm (l l' : list type) :
  Permutation l l' -> perm_eqv (deduplicate l) (deduplicate l').
Proof.
  induction 1 as [| x l l' _ IH | x y l | l l' l'' _ IH1 _ IH2]; simpl.
  - apply perm_eqv_of_perm. constructor.
  - apply perm_eqv_cons; [apply eqv_refl|].
    apply perm_eqv_filter; [|assumption].
    intros a b E. now rewrite (type_eqb_compat x a b E).
  - set (D := deduplicate l).
    destruct (type_eqb y x) eqn:Eyx.
    + (* the two heads are equal *)
      assert (type_eqb x y = true) as Exy by now apply type_eqb_sym.
      rewrite Exy. simpl.
      exists (y :: filter (fun u => negb (type_eqb y u))
                     (filter (fun u => negb (type_eqb x u)) D)).
      split; [apply Permutation_refl|]. constructor; [exact Eyx|].
      rewrite filter_filter_comm.
      replace (filter (fun u => negb (type_eqb y u)) D)
        with (filter (fun u => negb (type_eqb x u)) D).
      * replace (filter (fun u => negb (type_eqb y u))
                   (filter (fun u => negb (type_eqb x u)) D))
          with (filter (fun u => negb (type_eqb x u))
                   (filter (fun u => negb (type_eqb x u)) D)).
        -- apply Forall2_eqv_refl.
        -- apply filter_ext. intros u.
           now rewrite (type_eqb_compat_l x y u Exy).
      * apply filter_ext. intros u. now rewrite (type_eqb_compat_l x y u Exy).
    + assert (type_eqb x y = false) as Exy.
      { destruct (type_eqb x y) eqn:E; [|reflexivity].
        apply type_eqb_sym in E. congruence. }
      rewrite Exy. simpl.
      apply perm_eqv_of_perm. rewrite filter_filter_comm. apply perm_swap.
  - now apply (perm_eqv_trans _ _ _ IH1).
Qed.

Lemma Forall2_In_l {A B : Type} (R : A -> B -> Prop) (l : list A) (l' : list B) x :
  Forall2 R l l' -> In x l -> exists y, In y l' /\ R x y.
Proof.
  induction 1 as [|a b l l' Hab _ IH]; simpl; [tauto|].
  intros [->|Hin]; [exists b; auto|].
  destruct (IH Hin) as (y & Hy & Hr). exists y. auto.
Qed.

Lemma Forall2_In_r {A B : Type} (R : A -> B -> Prop) (l : list A) (l' : list B) y :
  Forall2 R l l' -> In y l' -> exists x, In x l /\ R x y.
Proof.
  induction 1 as [|a b l l' Hab _ IH]; simpl; [tauto|].
  intros [->|Hin]; [exists a; auto|].
  destruct (IH Hin) as (x & Hx & Hr). exists x. auto.
Qed.

Lemma perm_eqv_set_eqb (l l' : list type) :
  perm_eqv l l' -> set_eqb type_eqb l l' = true.
Proof.
  intros (m & P & F). apply set_eqb_spec. split.
  - intros x Hx. apply (Permutation_in _ P) in Hx.
    destruct (Forall2_In_l _ _ _ _ F Hx) as (y & Hy & E).
    now exists y.
  - intros y Hy. destruct (Forall2_In_r _ _ _ _ F Hy) as (x & Hx & E).
    exists x. split; [|assumption].
    now apply (Permutation_in _ (Permutation_sym P)).
Qed.

Lemma make_union_perm (l l' : list type) :
  Permutation l l' -> same_result (make_union l) (make_union l').
Proof.
  intros P. unfold make_union.
  assert (Permutation (flatten l) (flatten l')) as Pf
    by (unfold flatten; now apply Permutation_flat_map).
  pose proof (deduplicate_perm _ _ Pf) as PD.
  pose proof (perm_eqv_length _ _ PD) as HL.
  pose proof (perm_eqv_set_eqb _ _ PD) as HS.
  destruct (deduplicate (flatten l)) as [|t [|t2 ms]],
           (deduplicate (flatten l')) as [|t' [|t2' ms']];
    try discriminate; simpl; try exact I; try exact HS.
  destruct PD as (m & Pm & Fm). apply Permutation_length_1_inv in Pm. subst m.
  now inversion Fm.
Qed.

(** ** Iteration over permuted inputs *)

Lemma mapM_perm {A B : Type} (f : A -> result B) (l l' : list A) :
  Permutation l l' -> same_list_result (mapM f l) (mapM f l').
Proof.
  induction 1 as [| x l l' _ IH | x y l | l l' l'' _ IH1 _ IH2]; simpl.
  - constructor.
  - destruct (f x); simpl; [|exact I].
    destruct (mapM f l), (mapM f l'); simpl in *; try tauto. now constructor.
  - destruct (f x), (f y); simpl; try exact I;
      destruct (mapM f l); simpl; try exact I. apply perm_swap.
  - destruct (mapM f l), (mapM f l'), (mapM f l''); simpl in *; try tauto.
    now apply (Permutation_trans IH1).
Qed.

Lemma forallb_perm {A : Type} (p : A -> bool) (l l' : list A) :
  Permutation l l' -> forallb p l = forallb p l'.
Proof.
  induction 1 as [| x l l' _ IH | x y l | l l' l'' _ IH1 _ IH2]; simpl.
  - reflexivity.
  - now rewrite IH.
  - destruct (p x), (p y); reflexivity.
  - congruence.
Qed.

Lemma forallb_eqv_head (t0 t0' : type) (l : list type) :
  eqv t0 t0' ->
  forallb (fun t => types_equal t t0) l = forallb (fun t => types_equal t t0') l.
Proof.
  intros E. induction l as [|x l IH]; simpl; [reflexivity|].
  unfold types_equal in *. now rewrite IH, (type_eqb_compat x t0 t0' E).
Qed.

(** "every type equals the first" does not depend on which is first *)
Lemma all_equal_first_perm (t0 t0' : type) (rest rest' : list type) :
  Permutation (t0 :: rest) (t0' :: rest') ->
  forallb (fun t => types_equal t t0) rest
  = forallb (fun t => types_equal t t0') rest'
  /\ (forallb (fun t => types_equal t t0) rest = true -> eqv t0 t0').
Proof.
  intros P.
  assert (forall a l, forallb (fun t => types_equal t a) l
                      = forallb (fun t => types_equal t a) (a :: l)) as Hhead.
  { intros a l. simpl. unfold types_equal. now rewrite type_eqb_refl. }
  assert (forallb (fun t => types_equal t t0) rest = true -> eqv t0 t0') as Hfirst.
  { intros H. rewrite Hhead, (forallb_perm _ _ _ P) in H.
    simpl in H. apply andb_prop in H as [H _]. now apply eqv_sym. }
  split; [|exact Hfirst].
  destruct (forallb (fun t => types_equal t t0) rest) eqn:E.
  - specialize (Hfirst eq_refl).
    rewrite Hhead, (forallb_perm _ _ _ P), (forallb_eqv_head _ _ _ Hfirst) in E.
    now rewrite Hhead.
  - destruct (forallb (fun t => types_equal t t0') rest') eqn:E'; [|reflexivity].
    rewrite Hhead, (forallb_perm _ _ _ (Permutation_sym P)) in E'.
    assert (eqv t0' t0) as Ev.
    { simpl in E'. apply andb_prop in E' as [E' _]. now apply eqv_sym. }
    rewrite (forallb_eqv_head _ _ _ Ev), <- Hhead in E'. congruence.
Qed.

(** ** Record Merge over permuted records *)

Lemma required_values_perm k (tds tds' : list type) :
  Permutation tds tds' ->
  Permutation (required_values k tds) (required_values k tds').
Proof. intros P. unfold required_values. now apply Permutation_flat_map. Qed.

Lemma optional_values_perm k (tds tds' : list type) :
  Permutation tds tds' ->
  Permutation (optional_values k tds) (optional_values k tds').
Proof. intros P. unfold optional_values. now apply Permutation_flat_map. Qed.

Lemma group_lookup_merged_required_perm k (tds tds' : list type) :
  Permutation tds tds' ->
  Permutation (group_lookup (merged_required_fields tds) k)
              (group_lookup (merged_required_fields tds') k).
Proof.
  intros P. rewrite !group_lookup_merged_required.
  pose proof (required_values_perm k _ _ P) as Pr.
  rewrite <- (Permutation_length Pr), <- (Permutation_length P).
  now destruct (_ && _).
Qed.

Lemma group_lookup_merged_optional_perm k (tds tds' : list type) :
  Permutation tds tds' ->
  Permutation (group_lookup (merged_optional_fields tds) k)
              (group_lookup (merged_optional_fields tds') k).
Proof.
  intros P. rewrite !group_lookup_merged_optional.
  pose proof (required_values_perm k _ _ P) as Pr.
  rewrite <- (Permutation_length Pr), <- (Permutation_length P).
  apply Permutation_app; [|now apply optional_values_perm].
  now destruct (Nat.eqb _ _).
Qed.

Lemma nodup_keys_NoDup {V : Type} (d : list (string * V)) :
  nodup_keys d = true -> NoDup (keys d).
Proof.
  induction d as [|[k v] d IH]; simpl; [constructor|].
  intros H. apply andb_prop in H as [Hk Hnd].
  apply negb_true_iff, has_key_false in Hk. constructor; auto.
Qed.

Lemma Permutation_nil_iff {A : Type} (l l' : list A) :
  Permutation l l' -> (l = [] <-> l' = []).
Proof.
  intros P. split; intros ->.
  - now apply Permutation_nil.
  - now apply Permutation_nil, Permutation_sym.
Qed.

(** Two dictionaries of lists that hold permuted lists under every key have
    the same keys. *)
Lemma groups_same_keys d d' :
  groups_ok d -> groups_ok d' ->
  (forall k, Permutation (group_lookup d k) (group_lookup d' k)) ->
  (forall k, In k (keys d) <-> In k (keys d'))
  /\ List.length d = List.length d'.
Proof.
  intros Hd Hd' Hp.
  assert (forall k, In k (keys d) <-> In k (keys d')) as Hk.
  { intros k. rewrite (group_lookup_key _ k Hd), (group_lookup_key _ k Hd').
    now rewrite (Permutation_nil_iff _ _ (Hp k)). }
  split; [exact Hk|].
  assert (Permutation (keys d) (keys d')) as P.
  { apply NoDup_Permutation; [apply nodup_keys_NoDup, Hd
                             | apply nodup_keys_NoDup, Hd' | exact Hk]. }
  apply Permutation_length in P. unfold keys in P. now rewrite !length_map in P.
Qed.

Lemma keys_entry {V : Type} k (d : list (string * V)) :
  In k (keys d) -> exists v, In (k, v) d.
Proof.
  intros H. apply in_map_iff in H as ([k0 v] & He & Hin). simpl in He. subst.
  now exists v.
Qed.

Lemma entry_key {V : Type} k v (d : list (string * V)) :
  In (k, v) d -> In k (keys d).
Proof. intros H. apply in_map_iff. now exists (k, v). Qed.

Lemma map_valuesM_forward {A B : Type} (f : A -> result B) (d : list (string * A)) d' :
  map_valuesM f d = Ok d' ->
  forall k x, In (k, x) d -> exists v, f x = Ok v /\ In (k, v) d'.
Proof.
  revert d'. induction d as [|[k0 x0] d IH]; simpl; intros d' H k x Hin;
    [tauto|].
  destruct (f x0) as [y|] eqn:Ey; [|discriminate]. simpl in H.
  destruct (map_valuesM f d) as [ys|]; [|discriminate]. simpl in H.
  inversion H; subst. destruct Hin as [He|Hin].
  - inversion He; subst. exists y. split; [assumption | now left].
  - destruct (IH ys eq_refl k x Hin) as (v & Hv & Hin'). exists v.
    split; [assumption | now right].
Qed.

Lemma map_valuesM_raise {A B : Type} (f : A -> result B) (d : list (string * A)) :
  forall e, map_valuesM f d = Raise e ->
  exists k x e', In (k, x) d /\ f x = Raise e'.
Proof.
  induction d as [|[k0 x0] d IH]; intros e; simpl; [discriminate|].
  destruct (f x0) as [y|e0] eqn:Ey; simpl.
  - destruct (map_valuesM f d) as [ys|e1]; simpl; [discriminate|].
    intros _. destruct (IH e1 eq_refl) as (k & x & e' & Hin & Hf).
    exists k, x, e'. split; [now right | assumption].
  - intros _. exists k0, x0, e0. split; [now left | assumption].
Qed.

Lemma map_valuesM_groups (s : list type -> result type) d d' :
  groups_ok d -> groups_ok d' ->
  (forall k, Permutation (group_lookup d k) (group_lookup d' k)) ->
  (forall k vs vs', In (k, vs) d -> In (k, vs') d' ->
                    same_result (s vs) (s vs')) ->
  same_fields_result (map_valuesM s d) (map_valuesM s d').
Proof.
  intros Hd Hd' Hp Hs.
  destruct (groups_same_keys d d' Hd Hd' Hp) as [Hk _].
  destruct (map_valuesM s d) as [r|e] eqn:Er,
           (map_valuesM s d') as [r'|e'] eqn:Er'; simpl; try exact I.
  - apply set_eqb_spec. split.
    + intros [k v] Hin.
      destruct (map_valuesM_In _ _ _ _ _ Er Hin) as (vs & Hvs & Hsv).
      destruct (keys_entry k d') as (vs' & Hvs').
      { apply Hk. now apply entry_key in Hvs. }
      destruct (map_valuesM_forward _ _ _ Er' k vs' Hvs') as (v' & Hsv' & Hin').
      exists (k, v'). split; [assumption|]. unfold item_eqb. simpl.
      rewrite String.eqb_refl. simpl.
      specialize (Hs k vs vs' Hvs Hvs'). now rewrite Hsv, Hsv' in Hs.
    + intros [k v'] Hin'.
      destruct (map_valuesM_In _ _ _ _ _ Er' Hin') as (vs' & Hvs' & Hsv').
      destruct (keys_entry k d) as (vs & Hvs).
      { apply Hk. now apply entry_key in Hvs'. }
      destruct (map_valuesM_forward _ _ _ Er k vs Hvs) as (v & Hsv & Hin).
      exists (k, v). split; [assumption|]. unfold item_eqb. simpl.
      rewrite String.eqb_refl. simpl.
      specialize (Hs k vs vs' Hvs Hvs'). now rewrite Hsv, Hsv' in Hs.
  - destruct (map_valuesM_raise _ _ _ Er') as (k & vs' & e0 & Hvs' & Hsv').
    destruct (keys_entry k d) as (vs & Hvs).
    { apply Hk. now apply entry_key in Hvs'. }
    destruct (map_valuesM_forward _ _ _ Er k vs Hvs) as (v & Hsv & _).
    specialize (Hs k vs vs' Hvs Hvs'). now rewrite Hsv, Hsv' in Hs.
  - destruct (map_valuesM_raise _ _ _ Er) as (k & vs & e0 & Hvs & Hsv).
    destruct (keys_entry k d') as (vs' & Hvs').
    { apply Hk. now apply entry_key in Hvs. }
    destruct (map_valuesM_forward _ _ _ Er' k vs' Hvs') as (v' & Hsv' & _).
    specialize (Hs k vs vs' Hvs Hvs'). now rewrite Hsv, Hsv' in Hs.
Qed.

Lemma concat_values_append_value d k v :
  Permutation (List.concat (values (append_value d k v)))
              (List.concat (values d) ++ [v]).
Proof.
  induction d as [|[k0 vs] d IH]; simpl; [apply Permutation_refl|].
  destruct (String.eqb k0 k); simpl.
  - rewrite <- !app_assoc. apply Permutation_app_head, Permutation_app_comm.
  - rewrite <- app_assoc. now apply Permutation_app_head.
Qed.

Lemma concat_values_append_items (items : fields) :
  forall d, Permutation (List.concat (values (append_items d items)))
                        (List.concat (values d) ++ values items).
Proof.
  induction items as [|kv items IH]; intros d; unfold append_items in *; simpl.
  - rewrite app_nil_r. apply Permutation_refl.
  - eapply Permutation_trans; [apply IH|].
    eapply Permutation_trans;
      [apply Permutation_app_tail, concat_values_append_value|].
    rewrite <- app_assoc. apply Permutation_refl.
Qed.

Lemma concat_values_key_value_types_dict_from (tds : list type) :
  forall d,
    Permutation
      (List.concat (values
         (fold_left (fun d td => append_items d (fst (field_annotations td)))
                    tds d)))
      (List.concat (values d)
       ++ flat_map (fun td => values (fst (field_annotations td))) tds).
Proof.
  induction tds as [|td tds IH]; intros d; simpl.
  - rewrite app_nil_r. apply Permutation_refl.
  - eapply Permutation_trans; [apply IH|].
    eapply Permutation_trans;
      [apply Permutation_app_tail, concat_values_append_items|].
    rewrite <- app_assoc. apply Permutation_refl.
Qed.

Lemma concat_values_filter (p : string * list type -> bool) d :
  Permutation (List.concat (values (filter p d))
               ++ List.concat (values (filter (fun kv => negb (p kv)) d)))
              (List.concat (values d)).
Proof.
  induction d as [|kv d IH]; simpl; [constructor|].
  destruct (p kv); simpl.
  - rewrite <- app_assoc. now apply Permutation_app_head.
  - eapply Permutation_trans; [apply Permutation_app_swap_app|].
    now apply Permutation_app_head.
Qed.

Lemma values_existing_optional (tds : list type) :
  values (existing_optional_fields tds)
  = flat_map (fun td => values (snd (field_annotations td))) tds.
Proof.
  unfold existing_optional_fields, values.
  induction tds as [|td tds IH]; simpl; [reflexivity|].
  now rewrite map_app, IH.
Qed.

(** The types Record Merge collects are the field types of the records. *)
Lemma merged_values_all (tds : list type) :
  Permutation (List.concat (values (merged_required_fields tds)
                            ++ values (merged_optional_fields tds)))
              (all_field_values tds).
Proof.
  rewrite List.concat_app. unfold merged_required_fields, merged_optional_fields.
  eapply Permutation_trans;
    [apply Permutation_app_head, concat_values_append_items|].
  rewrite app_assoc. unfold all_field_values.
  rewrite values_existing_optional. apply Permutation_app_tail.
  eapply Permutation_trans; [apply concat_values_filter|].
  unfold key_value_types_dict.
  apply (concat_values_key_value_types_dict_from tds []).
Qed.

Lemma all_field_values_perm (tds tds' : list type) :
  Permutation tds tds' ->
  Permutation (all_field_values tds) (all_field_values tds').
Proof.
  intros P. unfold all_field_values.
  apply Permutation_app; now apply Permutation_flat_map.
Qed.

Lemma isdisjoint_same_keys (a a' b b' : list string) :
  (forall k, In k a <-> In k a') -> (forall k, In k b <-> In k b') ->
  isdisjoint a b = isdisjoint a' b'.
Proof.
  intros Ha Hb.
  destruct (isdisjoint a b) eqn:E, (isdisjoint a' b') eqn:E'; try reflexivity.
  - rewrite isdisjoint_spec in E.
    assert (isdisjoint a' b' = true); [|congruence].
    apply isdisjoint_spec. intros k Hk Hk'. apply (E k); [now apply Ha | now apply Hb].
  - rewrite isdisjoint_spec in E'.
    assert (isdisjoint a b = true); [|congruence].
    apply isdisjoint_spec. intros k Hk Hk'. apply (E' k); [now apply Ha | now apply Hb].
Qed.

Lemma shrink_typed_dict_types_perm (cap : option Z) (tds tds' : list type) :
  Permutation tds tds' ->
  tds <> [] ->
  forallb is_anonymous_typed_dict tds = true ->
  (forall ts ts', types_size ts < types_size tds -> Permutation ts ts' ->
                  same_result (shrink_types ts cap) (shrink_types ts' cap)) ->
  same_result (shrink_typed_dict_types tds cap)
              (shrink_typed_dict_types tds' cap).
Proof.
  intros P Hne Hanon IH.
  unfold shrink_typed_dict_types, shrink_typed_dict_types_with.
  destruct cap as [size|]; [|exact I].
  pose proof (merged_fields_size tds Hanon) as Hsz.
  assert (0 < List.length tds) as Hlen
      by (destruct tds; [congruence | simpl; lia]).
  destruct (groups_same_keys _ _ (groups_ok_merged_required tds)
              (groups_ok_merged_required tds')
              (fun k => group_lookup_merged_required_perm k _ _ P))
    as [Kr Lr].
  destruct (groups_same_keys _ _ (groups_ok_merged_optional tds)
              (groups_ok_merged_optional tds')
              (fun k => group_lookup_merged_optional_perm k _ _ P))
    as [Ko Lo].
  rewrite <- Lr, <- Lo.
  destruct (_ >? size)%Z.
  - (* demoted *)
    assert (same_result
              (shrink_types
                 (List.concat (values (merged_required_fields tds)
                               ++ values (merged_optional_fields tds)))
                 (Some size))
              (shrink_types
                 (List.concat (values (merged_required_fields tds')
                               ++ values (merged_optional_fields tds')))
                 (Some size))) as Hv.
    { apply IH.
      - rewrite List.concat_app, types_size_app, !types_size_concat_values. lia.
      - eapply Permutation_trans; [apply merged_values_all|].
        eapply Permutation_trans; [apply (all_field_values_perm _ _ P)|].
        apply Permutation_sym, merged_values_all. }
    destruct (shrink_types _ (Some size)), (shrink_types _ (Some size));
      simpl in *; try tauto.
    unfold eqv in *. simpl. now rewrite Hv.
  - (* merged *)
    assert (same_fields_result
              (map_valuesM (fun ts => shrink_types ts (Some size))
                           (merged_required_fields tds))
              (map_valuesM (fun ts => shrink_types ts (Some size))
                           (merged_required_fields tds'))) as Hr.
    { apply map_valuesM_groups;
        [apply groups_ok_merged_required | apply groups_ok_merged_required
        | intros k; now apply group_lookup_merged_required_perm |].
      intros k vs vs' Hvs Hvs'. apply IH.
      - pose proof (groups_size_In _ _ Hvs). simpl in *. lia.
      - destruct (groups_ok_merged_required tds) as [N1 _].
        destruct (groups_ok_merged_required tds') as [N2 _].
        rewrite <- (group_lookup_In _ _ _ N1 Hvs), <- (group_lookup_In _ _ _ N2 Hvs').
        now apply group_lookup_merged_required_perm. }
    assert (same_fields_result
              (map_valuesM (fun ts => shrink_types ts (Some size))
                           (merged_optional_fields tds))
              (map_valuesM (fun ts => shrink_types ts (Some size))
                           (merged_optional_fields tds'))) as Ho.
    { apply map_valuesM_groups;
        [apply groups_ok_merged_optional | apply groups_ok_merged_optional
        | intros k; now apply group_lookup_merged_optional_perm |].
      intros k vs vs' Hvs Hvs'. apply IH.
      - pose proof (groups_size_In _ _ Hvs). simpl in *. lia.
      - destruct (groups_ok_merged_optional tds) as [N1 _].
        destruct (groups_ok_merged_optional tds') as [N2 _].
        rewrite <- (group_lookup_In _ _ _ N1 Hvs), <- (group_lookup_In _ _ _ N2 Hvs').
        now apply group_lookup_merged_optional_perm. }
    destruct (map_valuesM _ (merged_required_fields tds)) as [r|] eqn:Er,
             (map_valuesM _ (merged_required_fields tds')) as [r'|] eqn:Er';
      simpl in Hr; try tauto; cbn [bind]; try exact I.
    destruct (map_valuesM _ (merged_optional_fields tds)) as [o|] eqn:Eo,
             (map_valuesM _ (merged_optional_fields tds')) as [o'|] eqn:Eo';
      simpl in Ho; try tauto; cbn [bind]; try exact I.
    unfold make_typed_dict.
    rewrite (isdisjoint_same_keys (keys r) (keys r') (keys o) (keys o')).
    + destruct (isdisjoint (keys r') (keys o')); [|exact I].
      unfold same_result, eqv. simpl. now rewrite Hr, Ho.
    + intros k. rewrite (keys_map_valuesM _ _ _ Er), (keys_map_valuesM _ _ _ Er').
      apply Kr.
    + intros k. rewrite (keys_map_valuesM _ _ _ Eo), (keys_map_valuesM _ _ _ Eo').
      apply Ko.
Qed.

Lemma shrink_types_perm (cap : option Z) (n : nat) :
  forall types types',
    types_size types < n -> Permutation types types' ->
    same_result (shrink_types types cap) (shrink_types types' cap).
Proof.
  induction n as [|n IH]; intros types types' Hsz P; [lia|].
  rewrite !shrink_types_unfold.
  destruct types as [|t0 rest].
  { apply Permutation_nil in P. subst. simpl. reflexivity. }
  destruct types' as [|t0' rest'].
  { apply Permutation_sym, Permutation_nil in P. discriminate. }
  rewrite <- (forallb_perm is_anonymous_typed_dict _ _ P).
  rewrite <- (forallb_perm is_list _ _ P).
  destruct (all_equal_first_perm _ _ _ _ P) as [Heq Hfirst]. rewrite <- Heq.
  destruct (forallb is_anonymous_typed_dict (t0 :: rest)) eqn:Hanon.
  - apply shrink_typed_dict_types_perm; [assumption | congruence | assumption |].
    intros ts ts' Hts Pts. apply IH; [lia | assumption].
  - destruct (forallb (fun typ => types_equal typ t0) rest) eqn:Hall.
    + simpl. now apply Hfirst.
    + destruct (forallb is_list (t0 :: rest)).
      * pose proof (mapM_perm first_arg _ _ P) as Hm.
        destruct (mapM first_arg (t0 :: rest)) as [args|] eqn:Ea,
                 (mapM first_arg (t0' :: rest')) as [args'|] eqn:Ea';
          simpl in Hm; try tauto; cbn [bind]; try exact I.
        assert (same_result (shrink_types args cap) (shrink_types args' cap)) as Hs.
        { apply IH; [|assumption].
          apply mapM_first_arg_size in Ea; [lia | congruence]. }
        destruct (shrink_types args cap), (shrink_types args' cap);
          simpl in *; try tauto.
        unfold eqv in *. simpl. now rewrite Hs.
      * pose proof (mapM_perm (rewrite RewriteAnonymousTypedDictToDict) _ _ P)
          as Hm.
        destruct (mapM _ (t0 :: rest)) as [ys|] eqn:Ea,
                 (mapM _ (t0' :: rest')) as [ys'|] eqn:Ea';
          simpl in Hm; try tauto; cbn [bind]; try exact I.
        now apply make_union_perm.
Qed.

(** C3: shrink of a permuted sequence of types is shrink of the sequence:
    both raise, or both return and the two types are equal ([==], which takes
    the members of a union as a set and the fields of a record as a
    dictionary). *)
Theorem C3_shrink_order_insensitive (types types' : list type) (cap : option Z) :
  Permutation types' types ->
  same_result (shrink_types types' cap) (shrink_types types cap).
Proof.
  intros P. apply (shrink_types_perm cap (S (types_size types'))); [lia | exact P].
Qed.

Lemma C3_shrink_order_insensitive_witness :
  same_result (shrink_types [tstr; record_ab; tint] (Some 10%Z))
              (shrink_types [tint; tstr; record_ab] (Some 10%Z)).
Proof.
  apply C3_shrink_order_insensitive.
  apply Permutation_trans with (l' := [tstr; tint; record_ab]).
  - apply perm_skip, perm_swap.
  - apply perm_swap.
Defined.

(** ** The standard pipeline is idempotent on inferred types *)

Lemma rewrite_frozen (rw : rewriter) (t : type) :
  is_frozen t = true -> rewrite rw t = Ok t.
Proof.
  destruct t; try discriminate; try reflexivity.
  simpl. destruct (container_class g) as [cls|] eqn:Ec; [|reflexivity].
  intros H. destruct g; try discriminate; destruct rw; reflexivity.
Qed.

Lemma chain_frozen (rws : list rewriter) (t : type) :
  is_frozen t = true -> ChainedRewriter_rewrite rws t = Ok t.
Proof.
  intros H. induction rws as [|rw rws IH]; simpl; [reflexivity|].
  now rewrite (rewrite_frozen rw t H).
Qed.











Lemma flatten_no_union (ms : list type) :
  forallb (fun m => negb (is_union m)) ms = true -> flatten ms = ms.
Proof.
  induction ms as [|m ms IH]; simpl; [reflexivity|].
  intros H. apply andb_prop in H as [Hm Hms]. rewrite (IH Hms).
  now destruct m.
Qed.

Lemma filter_all {A : Type} (p : A -> bool) (l : list A) :
  forallb p l = true -> filter p l = l.
Proof.
  induction l as [|x l IH]; simpl; [reflexivity|].
  intros H. apply andb_prop in H as [Hx Hl]. now rewrite Hx, IH.
Qed.

Lemma deduplicate_distinct (ms : list type) :
  distinct ms = true -> deduplicate ms = ms.
Proof.
  induction ms as [|m ms IH]; simpl; [reflexivity|].
  intros H. apply andb_prop in H as [Hm Hms].
  now rewrite (IH Hms), (filter_all _ _ Hm).
Qed.

Lemma make_union_normal (ms : list type) :
  distinct ms = true ->
  forallb (fun m => negb (is_union m)) ms = true ->
  2 <= List.length ms ->
  make_union ms = Ok (TUnion ms).
Proof.
  intros Hd Hu Hl. unfold make_union.
  rewrite (flatten_no_union _ Hu), (deduplicate_distinct _ Hd).
  destruct ms as [|a [|b ms]]; simpl in Hl; try lia. reflexivity.
Qed.

Lemma distinct_app_l (l1 l2 : list type) :
  distinct (l1 ++ l2) = true -> distinct l1 = true.
Proof.
  induction l1 as [|x l1 IH]; simpl; [reflexivity|].
  intros H. apply andb_prop in H as [Hx Hl].
  rewrite forallb_app in Hx. apply andb_prop in Hx as [Hx _].
  now rewrite Hx, (IH Hl).
Qed.

Lemma union_or_fold (rest : list type) :
  forall pre,
    2 <= List.length pre ->
    distinct (pre ++ rest) = true ->
    forallb (fun m => negb (is_union m)) (pre ++ rest) = true ->
    fold_left (fun acc t => u <- acc ;; make_union [u; t]) rest (Ok (TUnion pre))
    = Ok (TUnion (pre ++ rest)).
Proof.
  induction rest as [|t rest IH]; intros pre Hl Hd Hu; simpl.
  - now rewrite app_nil_r.
  - replace (pre ++ t :: rest) with ((pre ++ [t]) ++ rest) in *
      by (now rewrite <- app_assoc).
    assert (make_union [TUnion pre; t] = Ok (TUnion (pre ++ [t]))) as ->.
    { pose proof (distinct_app_l _ _ Hd) as Hd'.
      rewrite forallb_app in Hu. apply andb_prop in Hu as [Hu' _].
      rewrite <- (make_union_normal (pre ++ [t]) Hd' Hu')
        by (rewrite length_app; simpl; lia).
      unfold make_union. f_equal. simpl.
      rewrite (flatten_no_union _ Hu').
      rewrite forallb_app in Hu'. apply andb_prop in Hu' as [_ Ht].
      simpl in Ht. destruct t; simpl in *; try discriminate;
        now rewrite ?app_nil_r. }
    apply IH; [rewrite length_app; simpl; lia | assumption | assumption].
Qed.

Lemma union_or_normal (ms : list type) :
  distinct ms = true ->
  forallb (fun m => negb (is_union m)) ms = true ->
  2 <= List.length ms ->
  union_or ms = Ok (TUnion ms).
Proof.
  intros Hd Hu Hl. destruct ms as [|a [|b rest]]; simpl in Hl; try lia.
  unfold union_or. simpl fold_left.
  change (a :: b :: rest) with ([a; b] ++ rest) in *.
  assert (make_union [a; b] = Ok (TUnion [a; b])) as ->.
  { apply make_union_normal; [now apply distinct_app_l in Hd | | simpl; lia].
    rewrite forallb_app in Hu. now apply andb_prop in Hu as [Hu _]. }
  apply union_or_fold; [simpl; lia | assumption | assumption].
Qed.

Lemma is_generic_of_Dict (m : type) :
  is_generic_of m typing_Dict = match dict_key m with Some _ => true | None => false end.
Proof.
  destruct m; try reflexivity. simpl.
  change (name_of_generic typing_Dict) with "Dict".
  now destruct (String.eqb (name_of_generic g) "Dict").
Qed.

Lemma config_dict_loop_aborts (es : list type) :
  forall kt vs,
    config_dict_loop es kt vs = Ok None
    <-> aborts (map dict_key es) kt = true.
Proof.
  induction es as [|e es IH]; intros kt vs; simpl.
  - split; discriminate.
  - rewrite is_generic_of_Dict.
    destruct e; simpl; try (split; reflexivity).
    destruct (String.eqb (name_of_generic g) "Dict"); simpl;
      [|split; reflexivity].
    destruct args as [|k rest]; simpl; [split; discriminate|].
    destruct (negb (type_eqb _ k)); [split; reflexivity|].
    apply IH.
Qed.
















Lemma forallb_incl {A : Type} (p : A -> bool) (l l' : list A) :
  incl l' l -> forallb p l = true -> forallb p l' = true.
Proof.
  intros Hi H. rewrite forallb_forall in *. intros x Hx. apply H, Hi, Hx.
Qed.


Lemma _rewrite_to_tuple_variadic (ms : list type) (t : type) :
  _rewrite_to_tuple ms = Ok (Some t) -> exists v, t = variadic_tuple v.
Proof.
  unfold _rewrite_to_tuple.
  destruct (_rewrite_to_tuple_loop ms None) as [[[v|]|]|]; simpl;
    intros H; inversion H; eauto.
Qed.




(** *** Inferred types have the shape the pipeline is idempotent on *)








Lemma mapM_Forall {A B : Type} (f : A -> result B) (Q : B -> Prop) (l : list A) :
  Forall (fun x => forall y, f x = Ok y -> Q y) l ->
  forall ys, mapM f l = Ok ys -> Forall Q ys.
Proof.
  induction 1 as [|x l Hx _ IH]; simpl; intros ys H.
  - inversion H. constructor.
  - destruct (f x) as [y|] eqn:Ef; [|discriminate]. cbn [bind] in H.
    destruct (mapM f l) as [ys'|]; [|discriminate]. cbn [bind] in H.
    inversion H; subst. constructor; [now apply Hx | now apply IH].
Qed.








(** * Further properties of the rewriters *)

Lemma type_eqb_nominal (t : type) (c : klass) :
  type_eqb t (TNominal c) = true -> t = TNominal c.
Proof.
  destruct t; try discriminate. simpl. intros H.
  now apply klass_eqb_eq in H as ->.
Qed.

(** X1: RewriteGenerator turns a Generator whose send and return types are
    both NoneType into the Iterator of its yield type, which it does not
    rewrite, and returns every other Generator as it is. *)
Theorem X1_rewrite_generator (y s r : type) :
  rewrite RewriteGenerator (make_generator y tnone tnone) = Ok (make_iterator y)
  /\ (s <> tnone \/ r <> tnone ->
      rewrite RewriteGenerator (make_generator y s r)
      = Ok (make_generator y s r)).
Proof.
  split; [reflexivity|]. intros H. cbn [rewrite make_generator container_class
    name_of_generic]. unfold make_generator. simpl.
  destruct (type_eqb s (TNominal NoneType)) eqn:Es;
    destruct (type_eqb r (TNominal NoneType)) eqn:Er; try reflexivity.
  apply type_eqb_nominal in Es, Er. unfold tnone in H. tauto.
Qed.

Lemma X1_rewrite_generator_witness :
  rewrite RewriteGenerator (make_generator tint tstr tnone)
  = Ok (make_generator tint tstr tnone).
Proof.
  apply (X1_rewrite_generator tint tstr tnone). left. discriminate.
Defined.

(** X2: a ChainedRewriter over the concatenation of two lists of rewriters
    is the chain over the first followed by the chain over the second, and an
    exception of the first ends the whole. *)
Theorem X2_chained_rewriter_app (rws1 rws2 : list rewriter) (typ : type) :
  ChainedRewriter_rewrite (rws1 ++ rws2) typ
  = (typ' <- ChainedRewriter_rewrite rws1 typ ;;
     ChainedRewriter_rewrite rws2 typ').
Proof.
  revert typ. induction rws1 as [|rw rws1 IH]; intros typ; simpl; [reflexivity|].
  destruct (rewrite rw typ) as [t1|]; simpl; [apply IH | reflexivity].
Qed.

(** X3: the type inferred for a list, a set or a tuple is a builtin alias,
    and every rewriter, hence every chain of rewriters, returns it as it is,
    whatever its arguments are. *)
Theorem X3_sequence_types_are_not_rewritten (v : value) (cap : option Z)
    (t : type) (rws : list rewriter) :
  is_sequence_value v = true ->
  get_type v cap = Ok t ->
  ChainedRewriter_rewrite rws t = Ok t.
Proof.
  intros Hv Ht. apply chain_frozen.
  destruct v; try discriminate; cbn [get_type] in Ht.
  - destruct (mapM _ elems); cbn [bind] in Ht; [|discriminate].
    destruct (shrink_types _ cap); cbn [bind] in Ht; [|discriminate].
    inversion Ht. reflexivity.
  - destruct (mapM _ elems); cbn [bind] in Ht; [|discriminate].
    destruct (shrink_types _ cap); cbn [bind] in Ht; [|discriminate].
    inversion Ht. reflexivity.
  - destruct (mapM _ elems); cbn [bind] in Ht; [|discriminate].
    inversion Ht. reflexivity.
Qed.

Lemma X3_sequence_types_are_not_rewritten_witness :
  ChainedRewriter_rewrite DEFAULT_REWRITER
    (TContainer builtins_list
       [TUnion (map (fun v => match v with
                              | VObject c => TNominal c
                              | _ => TAny
                              end) six_classes)])
  = Ok (TContainer builtins_list
          [TUnion (map (fun v => match v with
                                 | VObject c => TNominal c
                                 | _ => TAny
                                 end) six_classes)]).
Proof.
  apply (X3_sequence_types_are_not_rewritten (VList six_classes) (Some 5%Z));
    reflexivity.
Defined.

(** X4: RemoveEmptyContainers returns a union of two or more different
    members, none a union, as it is, empty containers included; it raises
    only what rewriting the non-empty members raises. *)
Theorem X4_remove_empty_containers_keeps_union (ms : list type) :
  distinct ms = true ->
  forallb (fun m => negb (is_union m)) ms = true ->
  2 <= List.length ms ->
  rewrite RemoveEmptyContainers (TUnion ms)
  = (elems <- mapM_if (rewrite RemoveEmptyContainers)
                      (fun e => negb (_is_empty e)) ms ;;
     Ok (TUnion ms)).
Proof.
  intros Hd Hu Hl. cbn [rewrite].
  destruct (mapM_if _ _ ms) as [[|e es]|]; cbn [bind]; try reflexivity.
  now apply union_or_normal.
Qed.

Lemma X4_remove_empty_containers_keeps_union_witness :
  rewrite RemoveEmptyContainers
    (TUnion [TContainer typing_Set [TAny]; TContainer typing_Set [tint]])
  = (elems <- mapM_if (rewrite RemoveEmptyContainers)
                      (fun e => negb (_is_empty e))
                      [TContainer typing_Set [TAny]; TContainer typing_Set [tint]] ;;
     Ok (TUnion [TContainer typing_Set [TAny]; TContainer typing_Set [tint]])).
Proof.
  apply X4_remove_empty_containers_keeps_union; [reflexivity | reflexivity|].
  simpl. lia.
Defined.

Lemma first_common_ancestor_shape (mro : list klass) (ms : list type) :
  (exists c, first_common_ancestor mro ms = TNominal c)
  \/ first_common_ancestor mro ms = TAny.
Proof.
  induction mro as [|a mro IH]; simpl; [now right|].
  destruct (klass_eqb a object_); [exact IH|].
  destruct (all_subclasses ms a) as [[|]|]; eauto.
Qed.

(** X5: what RewriteLargeUnion returns for a union above the threshold is
    never a union: it is a variadic tuple, a class or Any. *)
Theorem X5_large_union_is_truncated (n : Z) (ms : list type) (t : type) :
  (n < Z.of_nat (List.length ms))%Z ->
  rewrite (RewriteLargeUnion n) (TUnion ms) = Ok t ->
  is_union t = false
  /\ ((exists v, t = variadic_tuple v) \/ (exists c, t = TNominal c) \/ t = TAny).
Proof.
  intros Hn H. cbn [rewrite] in H. unfold RewriteLargeUnion_rewrite_Union in H.
  apply Z.leb_gt in Hn. rewrite Hn in H.
  destruct (_rewrite_to_tuple ms) as [[u|]|] eqn:Et; cbn [bind] in H;
    [| |discriminate].
  - inversion H; subst. destruct (_rewrite_to_tuple_variadic ms t Et) as (v & ->).
    split; [reflexivity | left; now exists v].
  - assert ((exists c, t = TNominal c) \/ t = TAny) as [(c & ->)| ->].
    { destruct ms as [|[] ms']; inversion H; subst; auto.
      apply first_common_ancestor_shape. }
    + split; [reflexivity | right; left; now exists c].
    + split; [reflexivity | now right; right].
Qed.

Lemma X5_large_union_is_truncated_witness :
  is_union TAny = false
  /\ ((exists v, TAny = variadic_tuple v) \/ (exists c, TAny = TNominal c)
      \/ TAny = TAny).
Proof.
  apply (X5_large_union_is_truncated 5 unrelated_six TAny); [simpl; lia|].
  reflexivity.
Defined.

(** ** RewriteConfigDict *)

Lemma config_dict_loop_keyed (es : list type) :
  forall kt vs,
    Forall (keyed kt) es ->
    config_dict_loop es (Some kt) vs
    = Ok (Some (Some kt, vs ++ flat_map dict_values es)).
Proof.
  induction es as [|e es IH]; intros kt vs H; simpl.
  - now rewrite app_nil_r.
  - inversion H as [|? ? (km & Hk & Ek) Hes]; subst.
    rewrite is_generic_of_Dict, Hk. simpl.
    destruct e; try discriminate. simpl in Hk.
    destruct (String.eqb (name_of_generic g) "Dict"); [|discriminate].
    destruct args as [|k rest]; [discriminate|]. simpl in Hk.
    inversion Hk; subst. rewrite Ek. simpl.
    rewrite (IH kt (vs ++ rest) Hes). simpl. now rewrite <- app_assoc.
Qed.

(** X6: RewriteConfigDict collapses a union whose members are all Dicts
    with a key type equal to that of the first member into the typing Dict
    from the first member's key type to the Union of all the value types,
    taken in the order of the members. *)
Theorem X6_config_dict_collapses (m0 : type) (ms : list type) (k : type) :
  dict_key m0 = Some (Some k) ->
  Forall (keyed k) ms ->
  rewrite RewriteConfigDict (TUnion (m0 :: ms))
  = (u <- make_union (flat_map dict_values (m0 :: ms)) ;;
     Ok (TContainer typing_Dict [k; u])).
Proof.
  intros H0 Hms. cbn [rewrite]. unfold RewriteConfigDict_rewrite_Union.
  cbn [config_dict_loop]. rewrite is_generic_of_Dict, H0. cbn [negb].
  destruct m0; try discriminate. simpl in H0.
  destruct (String.eqb (name_of_generic g) "Dict"); [|discriminate].
  destruct args as [|k0 rest]; [discriminate|]. simpl in H0.
  inversion H0; subst. rewrite type_eqb_refl. cbn [negb].
  rewrite (config_dict_loop_keyed ms k _ Hms). reflexivity.
Qed.

Lemma X6_config_dict_collapses_witness :
  rewrite RewriteConfigDict
    (TUnion [TContainer typing_Dict [tstr; tint];
             TContainer builtins_dict [tstr; tstr]])
  = Ok (TContainer typing_Dict [tstr; TUnion [tint; tstr]]).
Proof.
  apply (X6_config_dict_collapses
           (TContainer typing_Dict [tstr; tint])
           [TContainer builtins_dict [tstr; tstr]] tstr).
  - reflexivity.
  - repeat constructor. exists tstr. split; reflexivity.
Defined.

Lemma aborts_culprit (k : type) (ms : list type) :
  Forall (fun m => dict_key m <> Some None) ms ->
  Exists (fun m => ~ keyed k m) ms ->
  aborts (map dict_key ms) (Some k) = true.
Proof.
  induction ms as [|m ms IH]; intros Hall Hex; [inversion Hex|].
  inversion Hall as [|? ? Hm Hms]; subst. simpl.
  destruct (dict_key m) as [[km|]|] eqn:Em; [|congruence|reflexivity].
  destruct (type_eqb k km) eqn:Ek; [|reflexivity]. simpl.
  apply IH; [assumption|].
  inversion Hex as [? ? Hn|]; subst; [|assumption].
  exfalso. apply Hn. now exists km.
Qed.

(** X7: RewriteConfigDict returns the union as it is when its first member
    is no Dict, and when the first member is a Dict and some member is no
    Dict or has another key type (no Dict alias being without arguments). *)
Theorem X7_config_dict_keeps_union (m0 : type) (ms : list type) :
  (dict_key m0 = None ->
   rewrite RewriteConfigDict (TUnion (m0 :: ms)) = Ok (TUnion (m0 :: ms)))
  /\ (forall k,
        dict_key m0 = Some (Some k) ->
        Forall (fun m => dict_key m <> Some None) ms ->
        Exists (fun m => ~ keyed k m) ms ->
        rewrite RewriteConfigDict (TUnion (m0 :: ms)) = Ok (TUnion (m0 :: ms))).
Proof.
  split.
  - intros H0. cbn [rewrite]. unfold RewriteConfigDict_rewrite_Union.
    rewrite (proj2 (config_dict_loop_aborts (m0 :: ms) None []));
      [reflexivity|].
    simpl. now rewrite H0.
  - intros k H0 Hall Hex. cbn [rewrite]. unfold RewriteConfigDict_rewrite_Union.
    rewrite (proj2 (config_dict_loop_aborts (m0 :: ms) None []));
      [reflexivity|].
    simpl. rewrite H0, type_eqb_refl. simpl. now apply aborts_culprit.
Qed.

Lemma X7_config_dict_keeps_union_witness :
  rewrite RewriteConfigDict
    (TUnion [tint; TContainer typing_Dict [tstr; tint]])
  = Ok (TUnion [tint; TContainer typing_Dict [tstr; tint]])
  /\ rewrite RewriteConfigDict
       (TUnion [TContainer typing_Dict [tstr; tint];
                TContainer typing_Dict [tint; tint]])
     = Ok (TUnion [TContainer typing_Dict [tstr; tint];
                   TContainer typing_Dict [tint; tint]]).
Proof.
  split.
  - apply (proj1 (X7_config_dict_keeps_union tint
                    [TContainer typing_Dict [tstr; tint]])). reflexivity.
  - apply (proj2 (X7_config_dict_keeps_union
                    (TContainer typing_Dict [tstr; tint])
                    [TContainer typing_Dict [tint; tint]]) tstr).
    + reflexivity.
    + repeat constructor. discriminate.
    + left. intros (km & Hk & Ek). inversion Hk; subst. discriminate.
Defined.

(** ** RewriteMostSpecificCommonBase, further *)

Lemma ancestor_chain_not_object (c b : klass) :
  In b (ancestor_chain c) -> klass_eqb b object_ = false.
Proof.
  induction c as [n bases IH] using klass_ind'. cbn [ancestor_chain].
  destruct (klass_eqb (Klass n bases) object_) eqn:E; [intros []|].
  destruct bases as [|p [|p' bases]].
  - intros [<-|[]]. exact E.
  - inversion IH as [|? ? Hp _]; subst. intros H. apply in_app_or in H as [H|H].
    + now apply Hp.
    + destruct H as [<-|[]]. exact E.
  - intros [<-|[]]. exact E.
Qed.

Lemma ancestor_chain_last (b : klass) :
  klass_eqb b object_ = false -> last_opt (ancestor_chain b) = Some b.
Proof.
  intros E. destruct b as [n bases]. cbn [ancestor_chain]. rewrite E.
  unfold last_opt.
  destruct bases as [|p [|p' bases]]; try reflexivity.
  now rewrite rev_app_distr.
Qed.

Lemma ancestor_chain_prefix (c b : klass) :
  In b (ancestor_chain c) -> prefix (ancestor_chain b) (ancestor_chain c).
Proof.
  induction c as [n bases IH] using klass_ind'. cbn [ancestor_chain].
  destruct (klass_eqb (Klass n bases) object_) eqn:E; [intros []|].
  assert (prefix (ancestor_chain (Klass n bases))
                 (if klass_eqb (Klass n bases) object_ then []
                  else match bases with
                       | [p] => ancestor_chain p ++ [Klass n bases]
                       | _ => [Klass n bases]
                       end)) as Hself.
  { cbn [ancestor_chain]. exists []. now rewrite app_nil_r. }
  rewrite E in Hself.
  destruct bases as [|p [|p' bases]].
  - intros [<-|[]]. exact Hself.
  - inversion IH as [|? ? Hp _]; subst. intros H. apply in_app_or in H as [H|H].
    + destruct (Hp H) as (s & Hs). exists (s ++ [Klass n [p]]).
      now rewrite Hs, <- app_assoc.
    + destruct H as [<-|[]]. exact Hself.
  - intros [<-|[]]. exact Hself.
Qed.

Lemma _merge_common_bases_prefix_r (p l : list klass) :
  prefix p l -> _merge_common_bases l p = p.
Proof.
  revert l. induction p as [|x p IH]; intros l H.
  - now destruct l.
  - destruct l as [|y l]; [destruct H as [s Hs]; discriminate|].
    apply prefix_cons_inv in H as [-> H]. simpl.
    now rewrite klass_eqb_refl, (IH l H).
Qed.

Lemma _merge_common_bases_prefix_l (p l : list klass) :
  prefix p l -> _merge_common_bases p l = p.
Proof.
  revert l. induction p as [|x p IH]; intros l H; [reflexivity|].
  destruct l as [|y l]; [destruct H as [s Hs]; discriminate|].
  apply prefix_cons_inv in H as [-> H]. simpl.
  now rewrite klass_eqb_refl, (IH l H).
Qed.

(** X8: the union of a class and one of the classes on its
    single-inheritance chain (the class itself, its base, the base of its
    base, ...) is rewritten to the latter, in either order of the members. *)
Theorem X8_common_base_of_descendant (c b : klass) :
  In b (_compute_bases c) ->
  rewrite RewriteMostSpecificCommonBase (TUnion [TNominal c; TNominal b])
  = Ok (TNominal b)
  /\ rewrite RewriteMostSpecificCommonBase (TUnion [TNominal b; TNominal c])
     = Ok (TNominal b).
Proof.
  rewrite _compute_bases_chain. intros H.
  pose proof (ancestor_chain_prefix c b H) as Hp.
  pose proof (ancestor_chain_last b (ancestor_chain_not_object c b H)) as Hl.
  cbn [rewrite]. unfold RewriteMostSpecificCommonBase_rewrite_Union. simpl.
  rewrite !_compute_bases_chain.
  rewrite (_merge_common_bases_prefix_r _ _ Hp),
          (_merge_common_bases_prefix_l _ _ Hp), Hl.
  now split.
Qed.

Lemma X8_common_base_of_descendant_witness :
  rewrite RewriteMostSpecificCommonBase (TUnion [TNominal Poodle; TNominal Dog])
  = Ok (TNominal Dog)
  /\ rewrite RewriteMostSpecificCommonBase (TUnion [TNominal Dog; TNominal Poodle])
     = Ok (TNominal Dog).
Proof.
  apply X8_common_base_of_descendant. vm_compute. right. left. reflexivity.
Defined.

Lemma prefix_antisym {A : Type} (p q : list A) :
  prefix p q -> prefix q p -> p = q.
Proof.
  intros [s Hs] [s' Hs']. subst q.
  assert (List.length (s ++ s') = 0) as Hl.
  { apply (f_equal (@List.length A)) in Hs'. rewrite <- app_assoc in Hs'.
    rewrite !length_app in *. lia. }
  destruct s; [now rewrite app_nil_r | discriminate].
Qed.

Lemma longest_common_prefix_perm {A : Type} (p p' : list A)
    (chains chains' : list (list A)) :
  Permutation chains chains' ->
  longest_common_prefix p chains -> longest_common_prefix p' chains' ->
  p = p'.
Proof.
  intros P [Hc Hg] [Hc' Hg']. apply prefix_antisym.
  - apply Hg'. unfold common_prefix in *. rewrite Forall_forall in *.
    intros x Hx. apply Hc. now apply (Permutation_in _ (Permutation_sym P)).
  - apply Hg. unfold common_prefix in *. rewrite Forall_forall in *.
    intros x Hx. apply Hc'. now apply (Permutation_in _ P).
Qed.

(** X9: RewriteMostSpecificCommonBase does not depend on the order of the
    classes of the union: on a permuted union it returns the same class, or
    the permuted union, which is equal to the union. *)
Theorem X9_common_base_order_insensitive (k : klass) (ks ks' : list klass) :
  Permutation (k :: ks) ks' ->
  same_result
    (rewrite RewriteMostSpecificCommonBase (TUnion (map TNominal (k :: ks))))
    (rewrite RewriteMostSpecificCommonBase (TUnion (map TNominal ks'))).
Proof.
  intros P. destruct ks' as [|k' ks'].
  { apply Permutation_sym, Permutation_nil in P. discriminate. }
  cbn [rewrite]. unfold RewriteMostSpecificCommonBase_rewrite_Union.
  rewrite !mapM_as_klass. cbn [bind map reduce].
  pose proof (fold_merge_longest (map _compute_bases ks) (_compute_bases k)) as L1.
  pose proof (fold_merge_longest (map _compute_bases ks') (_compute_bases k'))
    as L2.
  assert (Permutation (_compute_bases k :: map _compute_bases ks)
                      (_compute_bases k' :: map _compute_bases ks')) as PC
    by (apply (Permutation_map _compute_bases) in P; exact P).
  rewrite (longest_common_prefix_perm _ _ _ _ PC L1 L2).
  destruct (last_opt _); simpl.
  - apply eqv_refl.
  - apply perm_eqv_set_eqb, perm_eqv_of_perm.
    apply (Permutation_map TNominal) in P. exact P.
Qed.

Lemma X9_common_base_order_insensitive_witness :
  same_result
    (rewrite RewriteMostSpecificCommonBase
       (TUnion (map TNominal [Dog; Cat; Poodle])))
    (rewrite RewriteMostSpecificCommonBase
       (TUnion (map TNominal [Cat; Dog; Poodle]))).
Proof.
  apply X9_common_base_order_insensitive. apply perm_swap.
Defined.

(** * Further properties of the shrinker *)

Lemma flatten_flattened (ys : list type) :
  forallb flattened ys = true ->
  forallb (fun m => negb (is_anonymous_typed_dict m) && negb (is_union m))
          (flatten ys) = true.
Proof.
  induction ys as [|y ys IH]; simpl; [reflexivity|].
  intros H. apply andb_prop in H as [Hy Hys].
  rewrite forallb_app, (IH Hys), andb_true_r.
  destruct y; simpl in *; try reflexivity; try discriminate. exact Hy.
Qed.

Lemma make_union_flattened (ys : list type) (t : type) :
  forallb flattened ys = true -> make_union ys = Ok t -> flattened t = true.
Proof.
  intros Hy H. unfold make_union in H.
  pose proof (forallb_incl _ _ _ (deduplicate_incl (flatten ys))
                (flatten_flattened ys Hy)) as HD.
  destruct (deduplicate (flatten ys)) as [|a [|b D]]; [discriminate| |];
    inversion H; subst.
  - simpl in HD. apply andb_prop in HD as [HD _]. now destruct t.
  - exact HD.
Qed.

Lemma mapM_forallb_all {A B : Type} (f : A -> result B) (q : B -> bool)
    (l : list A) :
  Forall (fun x => forall y, f x = Ok y -> q y = true) l ->
  forall ys, mapM f l = Ok ys -> forallb q ys = true.
Proof.
  intros H ys Hys. apply forallb_forall. apply Forall_forall.
  now apply (mapM_Forall f (fun y => q y = true) l).
Qed.

Lemma rewrite_anonymous_flattened (x : type) :
  forall y, rewrite RewriteAnonymousTypedDictToDict x = Ok y ->
            flattened y = true.
Proof.
  induction x as [ | | | | | g args IHargs | r o IHr IHo | n a tot IHa
                 | ms IHms | ] using type_ind'; intros y Hy;
    try (simpl in Hy; inversion Hy; subst; reflexivity).
  - cbn [rewrite] in Hy. destruct (container_class g) as [cls|];
      [|now inversion Hy].
    assert (forall cls', (elems <- mapM (rewrite RewriteAnonymousTypedDictToDict)
                                        args ;;
                          Ok (TContainer cls' elems)) = Ok y ->
                         flattened y = true) as Hc.
    { intros cls' Hc. destruct (mapM _ args); cbn [bind] in Hc; [|discriminate].
      now inversion Hc. }
    destruct g; simpl in Hy; try (now inversion Hy); now apply (Hc cls).
  - cbn [rewrite] in Hy.
    destruct (values r ++ values o); [now inversion Hy|].
    destruct (mapM _ r); cbn [bind] in Hy; [|discriminate].
    destruct (mapM _ o); cbn [bind] in Hy; [|discriminate].
    destruct (make_union _); cbn [bind] in Hy; [|discriminate].
    now inversion Hy.
  - cbn [rewrite] in Hy.
    destruct (map_valuesM _ a); cbn [bind] in Hy; [|discriminate].
    now inversion Hy.
  - cbn [rewrite] in Hy.
    destruct (mapM _ ms) as [ys|] eqn:Ey; cbn [bind] in Hy; [|discriminate].
    apply (make_union_flattened ys); [|assumption].
    now apply (mapM_forallb_all _ flattened ms IHms).
Qed.



Lemma type_eqb_anonymous (a b : type) :
  type_eqb a b = true ->
  is_anonymous_typed_dict a = is_anonymous_typed_dict b.
Proof. destruct a, b; simpl; try discriminate; reflexivity. Qed.

Lemma all_equal_first_anonymous (t0 : type) (rest : list type) :
  is_anonymous_typed_dict t0 = true ->
  forallb (fun typ => types_equal typ t0) rest = true ->
  forallb is_anonymous_typed_dict (t0 :: rest) = true.
Proof.
  intros H0 H. simpl. rewrite H0. simpl. rewrite forallb_forall in *.
  intros x Hx. specialize (H x Hx). unfold types_equal in H.
  now rewrite (type_eqb_anonymous _ _ H).
Qed.

(** What [shrink_types] returns outside Record Merge is no anonymous
    record. *)
Lemma shrink_types_record_inv (ts : list type) (cap : option Z) (t : type) :
  shrink_types ts cap = Ok t ->
  is_anonymous_typed_dict t = true ->
  ts <> [] /\ forallb is_anonymous_typed_dict ts = true.
Proof.
  intros H Ht. rewrite shrink_types_unfold in H.
  destruct ts as [|t0 rest]; [inversion H; subst; discriminate|].
  split; [discriminate|].
  destruct (forallb is_anonymous_typed_dict (t0 :: rest)) eqn:Hanon;
    [reflexivity|].
  destruct (forallb (fun typ => types_equal typ t0) rest) eqn:Hall.
  - inversion H; subst. rewrite <- Hanon. now apply all_equal_first_anonymous.
  - destruct (forallb is_list (t0 :: rest)).
    + destruct (mapM first_arg (t0 :: rest)); cbn [bind] in H; [|discriminate].
      destruct (shrink_types _ cap); cbn [bind] in H; [|discriminate].
      inversion H; subst. discriminate.
    + destruct (mapM _ (t0 :: rest)) as [ys|] eqn:Ey; cbn [bind] in H;
        [|discriminate].
      apply make_union_flattened in H.
      * destruct t; discriminate.
      * refine (mapM_forallb_all _ flattened (t0 :: rest) _ ys Ey).
        apply Forall_forall. intros x _ y. apply rewrite_anonymous_flattened.
Qed.

(** X11: shrink_types returns an anonymous record only when its input is a
    non-empty sequence of anonymous records. *)
Theorem X11_shrink_record_only_from_records (ts : list type) (cap : option Z)
    (r o : fields) :
  shrink_types ts cap = Ok (TAnon r o) ->
  ts <> [] /\ forallb is_anonymous_typed_dict ts = true.
Proof. intros H. now apply (shrink_types_record_inv ts cap (TAnon r o)). Qed.

Lemma X11_shrink_record_only_from_records_witness :
  [record_a; record_ab] <> []
  /\ forallb is_anonymous_typed_dict [record_a; record_ab] = true.
Proof.
  apply (X11_shrink_record_only_from_records [record_a; record_ab]
           (Some 10%Z) [("a", tint)] [("b", tstr)]).
  reflexivity.
Defined.

Lemma NoDup_nodup_keys {V : Type} (d : list (string * V)) :
  NoDup (keys d) -> nodup_keys d = true.
Proof.
  induction d as [|[k v] d IH]; simpl; [reflexivity|].
  intros H. inversion H as [|? ? Hk Hd]; subst.
  rewrite (IH Hd), andb_true_r. apply negb_true_iff. now apply has_key_false.
Qed.

Lemma nodup_keys_same_keys {V W : Type} (d : list (string * V))
    (d' : list (string * W)) :
  keys d' = keys d -> nodup_keys d = true -> nodup_keys d' = true.
Proof.
  intros Hk H. apply NoDup_nodup_keys. rewrite Hk. now apply nodup_keys_NoDup.
Qed.

Lemma length_same_keys {V W : Type} (d : list (string * V))
    (d' : list (string * W)) :
  keys d' = keys d -> List.length d' = List.length d.
Proof.
  intros Hk. apply (f_equal (@List.length string)) in Hk.
  unfold keys in Hk. now rewrite !length_map in Hk.
Qed.

Lemma fits_not_record (cap : option Z) (t : type) :
  is_anonymous_typed_dict t = false -> fits cap t = true.
Proof. now destruct t. Qed.

Lemma shrink_types_fits (cap : option Z) (n : nat) :
  forall ts t,
    types_size ts < n -> shrink_types ts cap = Ok t -> fits cap t = true.
Proof.
  induction n as [|n IH]; intros ts t Hsz H; [lia|].
  destruct (is_anonymous_typed_dict t) eqn:Ht; [|now apply fits_not_record].
  destruct (shrink_types_record_inv ts cap t H Ht) as [Hne Hanon].
  rewrite shrink_types_unfold in H. destruct ts as [|t0 rest]; [congruence|].
  rewrite Hanon in H.
  pose proof (merged_fields_size _ Hanon) as Hm. simpl List.length in Hm.
  unfold shrink_typed_dict_types, shrink_typed_dict_types_with in H.
  destruct cap as [size|]; [|discriminate].
  destruct (_ >? size)%Z eqn:Ecap.
  { destruct (shrink_types _ (Some size)); cbn [bind] in H; [|discriminate].
    inversion H; subst. discriminate. }
  destruct (map_valuesM _ (merged_required_fields (t0 :: rest)))
    as [r|] eqn:Er; cbn [bind] in H; [|discriminate].
  destruct (map_valuesM _ (merged_optional_fields (t0 :: rest)))
    as [o|] eqn:Eo; cbn [bind] in H; [|discriminate].
  unfold make_typed_dict in H.
  destruct (isdisjoint (keys r) (keys o)) eqn:Ed; [|discriminate].
  inversion H; subst. cbn [fits].
  pose proof (keys_map_valuesM _ _ _ Er) as Kr.
  pose proof (keys_map_valuesM _ _ _ Eo) as Ko.
  rewrite (nodup_keys_same_keys _ r Kr
             (proj1 (groups_ok_merged_required (t0 :: rest)))).
  rewrite (nodup_keys_same_keys _ o Ko
             (proj1 (groups_ok_merged_optional (t0 :: rest)))).
  rewrite Ed, (length_same_keys _ r Kr), (length_same_keys _ o Ko).
  rewrite Z.gtb_ltb in Ecap. apply Z.ltb_ge in Ecap.
  apply Z.leb_le in Ecap. rewrite Ecap. simpl.
  apply andb_true_intro. split; apply forallb_forall; intros [k v] Hin.
  - destruct (map_valuesM_In _ _ _ _ _ Er Hin) as (vs & Hvs & Hv).
    apply (IH vs v); [|exact Hv]. pose proof (groups_size_In _ _ Hvs).
    simpl in *. lia.
  - destruct (map_valuesM_In _ _ _ _ _ Eo Hin) as (vs & Hvs & Hv).
    apply (IH vs v); [|exact Hv]. pose proof (groups_size_In _ _ Hvs).
    simpl in *. lia.
Qed.

(** X12: whatever shrink_types returns respects the cap: when it is an
    anonymous record, its required and optional names are distinct and
    disjoint and their number is within max_typed_dict_size, and so it is for
    every anonymous record that is the type of one of its fields, and of
    theirs. *)
Theorem X12_shrink_respects_cap (ts : list type) (cap : option Z) (t : type) :
  shrink_types ts cap = Ok t -> fits cap t = true.
Proof.
  apply (shrink_types_fits cap (S (types_size ts))). lia.
Qed.

Lemma X12_shrink_respects_cap_witness :
  fits (Some 2%Z) (TAnon [("a", tint)] [("b", tstr)]) = true.
Proof.
  apply (X12_shrink_respects_cap [record_a; record_ab] (Some 2%Z)). reflexivity.
Defined.

Lemma shrink_types_one_fits (t : type) (cap : option Z) :
  fits cap t = true -> shrink_types [t] cap = Ok t.
Proof.
  induction t as [ | | | | | g args _ | r o IHr IHo | n a tot _ | ms _ | ]
    using type_ind'; intros Hfit;
    try (now apply shrink_types_one_not_record).
  destruct cap as [size|]; [|discriminate]. cbn [fits] in Hfit.
  apply andb_prop in Hfit as [Hfit Hfo]. apply andb_prop in Hfit as [Hfit Hfr].
  apply andb_prop in Hfit as [Hfit Hsz]. apply andb_prop in Hfit as [Hfit Hd].
  apply andb_prop in Hfit as [Hr Ho].
  rewrite forallb_forall in Hfr, Hfo.
  rewrite shrink_types_unfold. cbn [forallb is_anonymous_typed_dict andb].
  unfold shrink_typed_dict_types, shrink_typed_dict_types_with.
  destruct (merged_fields_single r o Hr Ho) as [-> ->].
  rewrite !length_map.
  assert ((Z.of_nat (List.length r + List.length o) >? size)%Z = false) as ->
    by (rewrite Z.gtb_ltb; apply Z.ltb_ge; now apply Z.leb_le).
  rewrite (map_valuesM_single _ r), (map_valuesM_single _ o).
  - cbn [bind]. now apply make_typed_dict_ok.
  - rewrite Forall_forall in *. intros kv Hkv. apply IHo; auto.
  - rewrite Forall_forall in *. intros kv Hkv. apply IHr; auto.
Qed.

(** X13: shrinking is idempotent: the shrink of the one-element sequence of
    a type that shrink_types returned is that type. *)
Theorem X13_shrink_idempotent (ts : list type) (cap : option Z) (t : type) :
  shrink_types ts cap = Ok t -> shrink_types [t] cap = Ok t.
Proof.
  intros H. apply shrink_types_one_fits.
  apply (shrink_types_fits cap (S (types_size ts)) ts t); [lia | exact H].
Qed.

Lemma X13_shrink_idempotent_witness :
  shrink_types [TAnon [("a", tint)] [("b", tstr)]] (Some 2%Z)
  = Ok (TAnon [("a", tint)] [("b", tstr)]).
Proof.
  apply (X13_shrink_idempotent [record_a; record_ab] (Some 2%Z)). reflexivity.
Defined.

(** X14: without a cap ([max_typed_dict_size] is None, which get_dict_type
    accepts) shrink_types raises a TypeError on every non-empty sequence of
    anonymous records, and so does the inference of a list or a set whose
    elements are all inferred as anonymous records. *)
Theorem X14_shrink_records_without_cap (ts : list type) :
  ts <> [] ->
  forallb is_anonymous_typed_dict ts = true ->
  shrink_types ts None = Raise TypeError
  /\ forall es,
      mapM (fun e => get_type e None) es = Ok ts ->
      get_type (VList es) None = Raise TypeError
      /\ get_type (VSet es) None = Raise TypeError.
Proof.
  intros Hne Hanon.
  assert (shrink_types ts None = Raise TypeError) as Hs.
  { rewrite shrink_types_unfold. destruct ts; [congruence|].
    now rewrite Hanon. }
  split; [exact Hs|]. intros es Hes. cbn [get_type].
  now rewrite Hes; cbn [bind]; rewrite Hs.
Qed.

Lemma X14_shrink_records_without_cap_witness :
  get_type (VList [VDict [(VStr "a", VInt 1)]]) None = Raise TypeError.
Proof.
  destruct (X14_shrink_records_without_cap [record_a]) as [_ H].
  - discriminate.
  - reflexivity.
  - apply (H [VDict [(VStr "a", VInt 1)]]). reflexivity.
Defined.

(** * Further properties of value inference *)

















(** * Inference under a cap returns *)

















(** * The size of the unions the default pipeline returns *)



